(** * Safe client: transaction hash and signature bundle

    A shallow embedding of the [SafeClient] class of [src/index.ts]:
    [calculateSafeTransactionHash], [combineSignatures], [verifySignatures]
    and [getSafeInfo], together with the parts of the JavaScript runtime and
    of the viem library these methods call.

    Conventions.
    - A JavaScript string is a Rocq [string]; the strings the program
      handles (URLs, hexadecimal values, addresses) are ASCII, so a
      character is a UTF-16 code unit below 128.
    - A byte is a [Z] in [0, 256); a byte string is a [list Z].
    - A [bigint] and an integral [number] are a [Z].
    - An exception is a value of [error]; a call either [Returns] or
      [Throws].
    - An [async] method is a state transformer over [World]: the heap of
      arrays, the requests issued through [fetch], and the console. *)

From Stdlib Require Import ZArith Lia List String Ascii Bool.
From stdpp Require Import base list strings gmap sorting pretty.

Local Open Scope Z_scope.

(* ===================================================================== *)
(** ** Bytes and hexadecimal text *)
(* ===================================================================== *)

Definition charCode (c : ascii) : Z := Z.of_N (N_of_ascii c).
Definition fromCharCode (n : Z) : ascii := ascii_of_N (Z.to_N n).

Definition is_byte (b : Z) : Prop := 0 <= b < 256.

(** viem [charCodeToBase16]: the value of a hexadecimal digit, in either
    case; [None] is viem's [undefined]. *)
Definition charCodeToBase16 (c : ascii) : option Z :=
  let n := charCode c in
  if (48 <=? n) && (n <=? 57) then Some (n - 48)
  else if (65 <=? n) && (n <=? 70) then Some (n - 55)
  else if (97 <=? n) && (n <=? 102) then Some (n - 87)
  else None.

Definition isHexDigit (c : ascii) : bool :=
  match charCodeToBase16 c with Some _ => true | None => false end.

(** The digit of a nibble, lower case (as [toString(16)] prints it). *)
Definition hexDigit (n : Z) : ascii :=
  fromCharCode (if n <? 10 then 48 + n else 87 + n).

Fixpoint hex_of_bytes (bs : list Z) : string :=
  match bs with
  | [] => EmptyString
  | b :: r => String (hexDigit (b / 16)) (String (hexDigit (b mod 16)) (hex_of_bytes r))
  end.

(** viem [bytesToHex]. *)
Definition bytesToHex (bs : list Z) : string := "0x" +:+ hex_of_bytes bs.

Fixpoint parse_hex_pairs (cs : list ascii) : option (list Z) :=
  match cs with
  | [] => Some []
  | [_] => None
  | h :: l :: rest =>
      match charCodeToBase16 h, charCodeToBase16 l, parse_hex_pairs rest with
      | Some a, Some b, Some r => Some (a * 16 + b :: r)
      | _, _, _ => None
      end
  end.

(** [String.prototype.slice(n)] for [0 <= n]: the string without its first
    [n] code units. *)
Fixpoint slice (n : nat) (s : string) : string :=
  match n, s with
  | O, _ => s
  | S _, EmptyString => EmptyString
  | S n', String _ s' => slice n' s'
  end.

Definition startsWith (p s : string) : bool := String.prefix p s.

Definition stringToBytes (s : string) : list Z := map charCode (list_ascii_of_string s).

(** big-endian bytes of [n], [len] of them *)
Fixpoint be_bytes (len : nat) (n : Z) : list Z :=
  match len with
  | O => []
  | S len' => be_bytes len' (n / 256) ++ [n mod 256]
  end.

(** the number a big-endian byte string denotes *)
Definition be_value (bs : list Z) : Z := fold_left (fun acc b => acc * 256 + b) bs 0.

(* ===================================================================== *)
(** ** Keccak-256

    The hash behind viem's [keccak256] (the original Keccak padding, not
    SHA-3's): Keccak-f[1600] on 25 lanes of 64 bits, rate 136 bytes. *)
(* ===================================================================== *)

Definition mask64 : Z := 0xFFFFFFFFFFFFFFFF.

Definition rotl64 (x n : Z) : Z :=
  Z.land (Z.lor (Z.shiftl x n) (Z.shiftr x (64 - n))) mask64.

Definition lane (st : list Z) (x y : nat) : Z := nth (x + 5 * y)%nat st 0.

Definition column (st : list Z) (x : nat) : Z :=
  fold_right Z.lxor 0 (map (lane st x) (seq 0 5)).

Definition theta (st : list Z) : list Z :=
  let D x := Z.lxor (column st ((x + 4) mod 5)%nat)
                    (rotl64 (column st ((x + 1) mod 5)%nat) 1) in
  map (fun i => Z.lxor (nth i st 0) (D (i mod 5)%nat)) (seq 0 25).

Definition rotation_offsets : list Z :=
  [ 0;  1; 62; 28; 27;
   36; 44;  6; 55; 20;
    3; 10; 43; 25; 39;
   41; 45; 15; 21;  8;
   18;  2; 61; 56; 14].

(** rho and pi together: lane (x, y) rotated lands at (y, 2x + 3y) *)
Definition rho_pi (st : list Z) : list Z :=
  map (fun i => let X := (i mod 5)%nat in
                let Y := (i / 5)%nat in
                let x := ((X + 3 * Y) mod 5)%nat in
                rotl64 (lane st x X) (nth (x + 5 * X)%nat rotation_offsets 0))
      (seq 0 25).

Definition chi (st : list Z) : list Z :=
  map (fun i => let x := (i mod 5)%nat in
                let y := (i / 5)%nat in
                Z.lxor (lane st x y)
                       (Z.ldiff (lane st ((x + 2) mod 5)%nat y)
                                (lane st ((x + 1) mod 5)%nat y)))
      (seq 0 25).

Definition iota (rc : Z) (st : list Z) : list Z :=
  match st with
  | [] => []
  | a :: r => Z.lxor a rc :: r
  end.

Definition round_constants : list Z :=
  [0x0000000000000001; 0x0000000000008082; 0x800000000000808A; 0x8000000080008000;
   0x000000000000808B; 0x0000000080000001; 0x8000000080008081; 0x8000000000008009;
   0x000000000000008A; 0x0000000000000088; 0x0000000080008009; 0x000000008000000A;
   0x000000008000808B; 0x800000000000008B; 0x8000000000008089; 0x8000000000008003;
   0x8000000000008002; 0x8000000000000080; 0x000000000000800A; 0x800000008000000A;
   0x8000000080008081; 0x8000000000008080; 0x0000000080000001; 0x8000000080008008].

Definition keccak_round (st : list Z) (rc : Z) : list Z :=
  iota rc (chi (rho_pi (theta st))).

Definition keccak_f (st : list Z) : list Z := fold_left keccak_round round_constants st.

Definition rate : nat := 136.

(** a lane from at most eight bytes, little-endian *)
Definition le_lane (bs : list Z) : Z :=
  fold_right (fun b acc => Z.lor b (Z.shiftl acc 8)) 0 bs.

Fixpoint lanes_of (n : nat) (bs : list Z) : list Z :=
  match n with
  | O => []
  | S n' => le_lane (firstn 8 bs) :: lanes_of n' (skipn 8 bs)
  end.

Fixpoint xor_lanes (st blk : list Z) : list Z :=
  match st, blk with
  | a :: st', b :: blk' => Z.lxor a b :: xor_lanes st' blk'
  | _, _ => st
  end.

(** pad10*1 with Keccak's domain bit: 0x01, zeros, 0x80 up to the rate *)
Definition pad101 (len : nat) : list Z :=
  let q := (rate - len mod rate)%nat in
  if Nat.eqb q 1 then [0x81] else 0x01 :: repeat 0 (q - 2) ++ [0x80].

Fixpoint absorb (blocks : nat) (st : list Z) (bs : list Z) : list Z :=
  match blocks with
  | O => st
  | S n => absorb n (keccak_f (xor_lanes st (lanes_of 17 (firstn rate bs)))) (skipn rate bs)
  end.

Definition lane_bytes (l : Z) : list Z :=
  map (fun k => Z.land (Z.shiftr l (8 * Z.of_nat k)) 255) (seq 0 8).

Definition keccak_256 (msg : list Z) : list Z :=
  let padded := msg ++ pad101 (length msg) in
  let st := absorb (length padded / rate) (repeat 0 25) padded in
  flat_map (fun i => lane_bytes (nth i st 0)) (seq 0 4).

(* ===================================================================== *)
(** ** Exceptions and results *)
(* ===================================================================== *)

Inductive error : Type :=
| Error (message : string)
| TypeError (message : string)
| SyntaxError (message : string)
| InvalidAddressError (address : string)
| IntegerOutOfRangeError (value : Z)
| AbiEncodingLengthMismatchError (expectedLength givenLength : nat)
| AbiEncodingBytesSizeMismatchError (expectedSize givenSize : nat)
| BytesSizeMismatchError (expectedSize givenSize : nat)
| InvalidByteSequenceError (hexString : string)
| InvalidAbiEncodingTypeError
| DuplicateSignerError
| InsufficientSignaturesError.

Inductive outcome (A : Type) : Type :=
| Returns (a : A)
| Throws (e : error).
Arguments Returns {A} a.
Arguments Throws {A} e.

#[global] Instance outcome_ret : MRet outcome := fun A a => Returns a.
#[global] Instance outcome_bind : MBind outcome := fun A B f m =>
  match m with
  | Returns a => f a
  | Throws e => Throws e
  end.

Fixpoint mapM2 {A B C} (f : A -> B -> outcome C) (xs : list A) (ys : list B) : outcome (list C) :=
  match xs, ys with
  | x :: xs', y :: ys' => c ← f x y; cs ← mapM2 f xs' ys'; Returns (c :: cs)
  | _, _ => Returns []
  end.

(* ===================================================================== *)
(** ** JavaScript strings *)
(* ===================================================================== *)

(** [toLowerCase] and [toUpperCase] on the ASCII range *)
Definition toLowerCaseChar (c : ascii) : ascii :=
  let n := charCode c in
  if (65 <=? n) && (n <=? 90) then fromCharCode (n + 32) else c.

Definition toUpperCaseChar (c : ascii) : ascii :=
  let n := charCode c in
  if (97 <=? n) && (n <=? 122) then fromCharCode (n - 32) else c.

Fixpoint toLowerCase (s : string) : string :=
  match s with
  | EmptyString => EmptyString
  | String c s' => String (toLowerCaseChar c) (toLowerCase s')
  end.

(** [Array.prototype.join('')] on an array of strings *)
Definition join (parts : list string) : string := fold_right String.append EmptyString parts.

(** [String.prototype.localeCompare]: negative, zero or positive, by the
    collation of the runtime's default locale.  The collation is the
    runtime's, not the program's, so it is an interface here. *)
Class Collator := localeCompare : string -> string -> Z.

(** The order of UTF-16 code units, as a [localeCompare] would report it. *)
Definition codeUnitCompare (a b : string) : Z :=
  match String.compare a b with
  | Lt => -1
  | Eq => 0
  | Gt => 1
  end.

(** [Array.prototype.sort(comparefn)].  The sort is stable (ES2019), and for
    a consistent [comparefn] its result is the one stable ordering; insertion
    from the right computes it: an element goes before the first element it
    does not compare greater than.  (For a [comparefn] that is not consistent
    the order is left to the implementation; a collation is consistent.) *)
Fixpoint sort_insert {A} (comparefn : A -> A -> Z) (x : A) (sorted : list A) : list A :=
  match sorted with
  | [] => [x]
  | y :: rest =>
      if comparefn x y <=? 0 then x :: sorted else y :: sort_insert comparefn x rest
  end.

Definition Array_sort {A} (comparefn : A -> A -> Z) (items : list A) : list A :=
  fold_right (sort_insert comparefn) [] items.

(* ===================================================================== *)
(** ** viem: hex values, hashing, ABI encoding

    A [Hex] value is an [0x]-prefixed string, as in viem; the functions are
    given by the byte strings they read and write. *)
(* ===================================================================== *)

(** viem [hexToBytes]: the two characters of the prefix are dropped
    unread, an odd number of digits gets a leading zero. *)
Definition hexToBytes (hex : string) : outcome (list Z) :=
  let hexString := slice 2 hex in
  let hexString :=
    if Nat.odd (String.length hexString) then "0" +:+ hexString else hexString in
  match parse_hex_pairs (list_ascii_of_string hexString) with
  | Some bytes => Returns bytes
  | None => Throws (InvalidByteSequenceError hexString)
  end.

(** viem [size]: the number of bytes of a hex value *)
Definition size (value : string) : nat :=
  if startsWith "0x" value then Nat.div2 (String.length value - 2 + 1)
  else String.length value.

(** viem [keccak256] with a string argument: a value that starts with [0x]
    is read as hex, any other string is hashed as its UTF-8 text. *)
Definition keccak256 (value : string) : outcome string :=
  bytes ← (if startsWith "0x" value then hexToBytes value
           else Returns (stringToBytes value));
  Returns (bytesToHex (keccak_256 bytes)).

(** The regular expression [/^0x[a-fA-F0-9]{40}$/] of viem's [isAddress] and
    of [getSafeInfo]; in JavaScript [$] matches at the very end only. *)
Definition addressRegex_test (s : string) : bool :=
  match s with
  | String "0" (String "x" digits) =>
      Nat.eqb (String.length digits) 40 && forallb isHexDigit (list_ascii_of_string digits)
  | _ => false
  end.

Fixpoint checksum_case (i : nat) (hash : list Z) (cs : list ascii) : list ascii :=
  match cs with
  | [] => []
  | c :: r =>
      let byte := nth (i / 2)%nat hash 0 in
      let nibble := if Nat.even i then Z.shiftr byte 4 else Z.land byte 15 in
      (if (i <? 40)%nat && (8 <=? nibble) then toUpperCaseChar c else c)
        :: checksum_case (S i) hash r
  end.

(** viem [checksumAddress] without a chain id (EIP-55) *)
Definition checksumAddress (address_ : string) : string :=
  let hexAddress := toLowerCase (slice 2 address_) in
  let hash := keccak_256 (stringToBytes hexAddress) in
  "0x" +:+ string_of_list_ascii (checksum_case 0 hash (list_ascii_of_string hexAddress)).

(** viem [isAddress], strict by default: an address in mixed case must carry
    its checksum. *)
Definition isAddress (address : string) : bool :=
  if negb (addressRegex_test address) then false
  else if String.eqb (toLowerCase address) address then true
  else String.eqb (checksumAddress address) address.

(** The ABI types this program encodes; all are static. *)
Inductive AbiType : Type :=
| bytesN (n : nat)
| uintN (bits : nat)
| address.

Record AbiParameter : Type := { type : AbiType; name : string }.

Inductive JsValue : Type :=
| JsString (s : string)
| JsBigInt (n : Z)
| JsNumber (n : Z).

Definition padLeft (n : nat) (bytes : list Z) : list Z := repeat 0 (n - length bytes) ++ bytes.
Definition padRight (n : nat) (bytes : list Z) : list Z := bytes ++ repeat 0 (n - length bytes).

(** viem [encodeNumber], unsigned: the value must fit the declared width
    and always fills a 32-byte word. *)
Definition encodeNumber (value : Z) (bits : nat) : outcome (list Z) :=
  if (0 <=? value) && (value <? 2 ^ Z.of_nat bits) then Returns (be_bytes 32 value)
  else Throws (IntegerOutOfRangeError value).

Definition encodeAddress (value : string) : outcome (list Z) :=
  if isAddress value then
    bytes ← hexToBytes (toLowerCase value); Returns (padLeft 32 bytes)
  else Throws (InvalidAddressError value).

Definition encodeBytes (value : string) (paramSize : nat) : outcome (list Z) :=
  let bytesSize := size value in
  if negb (Nat.eqb bytesSize paramSize)
  then Throws (AbiEncodingBytesSizeMismatchError paramSize bytesSize)
  else bytes ← hexToBytes value; Returns (padRight 32 bytes).

Definition prepareParam (param : AbiParameter) (value : JsValue) : outcome (list Z) :=
  match type param, value with
  | address, JsString s => encodeAddress s
  | uintN bits, JsBigInt n => encodeNumber n bits
  | uintN bits, JsNumber n => encodeNumber n bits
  | bytesN n, JsString s => encodeBytes s n
  | _, _ => Throws (TypeError "value does not match its ABI type")
  end.

(** viem [encodeAbiParameters] on static parameters: one 32-byte word each *)
Definition encodeAbiParameters (params : list AbiParameter) (values : list JsValue)
  : outcome string :=
  if negb (Nat.eqb (length params) (length values))
  then Throws (AbiEncodingLengthMismatchError (length params) (length values))
  else words ← mapM2 prepareParam params values; Returns (bytesToHex (concat words)).

(** viem [encodePacked]'s [encode] of one value: no padding *)
Definition encodePacked_one (type : AbiType) (value : JsValue) : outcome (list Z) :=
  match type, value with
  | address, JsString s =>
      if isAddress s then hexToBytes (toLowerCase s) else Throws (InvalidAddressError s)
  | uintN bits, JsBigInt n | uintN bits, JsNumber n =>
      if (0 <=? n) && (n <? 2 ^ Z.of_nat bits) then Returns (be_bytes (bits / 8) n)
      else Throws (IntegerOutOfRangeError n)
  | bytesN n, JsString s =>
      if negb (Nat.eqb (String.length s - 2) (2 * n))
      then Throws (BytesSizeMismatchError n (Nat.div2 (String.length s - 2)))
      else hexToBytes s
  | _, _ => Throws (TypeError "value does not match its ABI type")
  end.

Definition encodePacked (types : list AbiType) (values : list JsValue) : outcome string :=
  if negb (Nat.eqb (length types) (length values))
  then Throws (AbiEncodingLengthMismatchError (length types) (length values))
  else parts ← mapM2 encodePacked_one types values; Returns (bytesToHex (concat parts)).

(* ===================================================================== *)
(** ** The data of the Safe client *)
(* ===================================================================== *)

Module AddressInfo.
Record t : Type := { value : string; name : option string; logoUri : option string }.
End AddressInfo.

Inductive VersionState : Type := UP_TO_DATE | OUTDATED | UNKNOWN.

(** [address] and [owners] are the two fields [getSafeInfo] checks for
    presence, so they may be missing from a response. *)
Module SafeInfo.
Record t : Type := {
  address : option AddressInfo.t;
  chainId : string;
  nonce : Z;
  threshold : Z;
  owners : option (list AddressInfo.t);
  implementation : AddressInfo.t;
  implementationVersionState : VersionState;
  modules : option (list AddressInfo.t);
  fallbackHandler : option AddressInfo.t;
  guard : option AddressInfo.t;
  version : string
}.
End SafeInfo.

Module SafeTransactionData.
Record t : Type := {
  to : string;
  value : Z;
  data : string;
  operation : Z;
  safeTxGas : Z;
  baseGas : Z;
  gasPrice : Z;
  gasToken : string;
  refundReceiver : string;
  nonce : Z
}.
End SafeTransactionData.

(** An element of [detailedExecutionInfo.confirmations], as
    [combineSignatures] reads it. *)
Record Confirmation : Type := { signer : AddressInfo.t; signature : string }.

Record ExecutionInfo : Type := {
  confirmations : list Confirmation;
  confirmationsRequired : Z
}.

Record TransactionDetails : Type := { detailedExecutionInfo : option ExecutionInfo }.

(** What [response.json()] can yield for the two endpoints read here. *)
Inductive Json : Type :=
| JsonNull
| JsonSafeInfo (safeInfo : SafeInfo.t)
| JsonTransaction (txInfo : TransactionDetails).

(** A [Response]: [body] is [None] when the body is not JSON. *)
Record Response : Type := { status : Z; body : option Json }.

Definition ok (response : Response) : bool :=
  (200 <=? status response) && (status response <=? 299).

Record SafeClient : Type := { baseUrl : string }.

Definition BASE_URL : string := "https://safe-client.safe.global".

Definition SAFE_TX_TYPEHASH : string :=
  "0xbb8310d486368db6bd6f849402fdd73ad53d316b5a4b2644ad6efe0f941286d8".
Definition DOMAIN_SEPARATOR_TYPEHASH : string :=
  "0x47e79534a245952e8b16893a336b85a3d9ea9fa8c573f3d803afb92a79469218".

(* ===================================================================== *)
(** ** The world of a method call *)
(* ===================================================================== *)

(** A reference to an array of confirmations. *)
Definition loc : Type := positive.

Record World : Type := {
  heap : gmap loc (list Confirmation);
  requests : list string;
  console : list (string * error);
  network : list string -> string -> option Response
}.

Definition set_heap (h : gmap loc (list Confirmation)) (w : World) : World :=
  {| heap := h; requests := requests w; console := console w; network := network w |}.
Definition set_requests (r : list string) (w : World) : World :=
  {| heap := heap w; requests := r; console := console w; network := network w |}.
Definition set_console (c : list (string * error)) (w : World) : World :=
  {| heap := heap w; requests := requests w; console := c; network := network w |}.

Definition M (A : Type) : Type := World -> outcome A * World.

#[global] Instance M_ret : MRet M := fun A a w => (Returns a, w).
#[global] Instance M_bind : MBind M := fun A B f m w =>
  match m w with
  | (Returns a, w') => f a w'
  | (Throws e, w') => (Throws e, w')
  end.

Definition throw {A} (e : error) : M A := fun w => (Throws e, w).

Definition liftO {A} (o : outcome A) : M A := fun w => (o, w).

(** [try { body } catch (error) { handler }] *)
Definition try_catch {A} (body : M A) (handler : error -> M A) : M A := fun w =>
  match body w with
  | (Returns a, w') => (Returns a, w')
  | (Throws e, w') => handler e w'
  end.

(** [if (cond) throw e] *)
Definition throw_if (cond : bool) (e : error) : M unit :=
  if cond then throw e else mret tt.

Definition console_error (message : string) (e : error) : M unit := fun w =>
  (Returns tt, set_console (console w ++ [(message, e)]) w).

(** [fetch(url)]: the request is recorded; the network answers with a
    response or not at all (the promise rejects). *)
Definition fetch (url : string) : M Response := fun w =>
  let w' := set_requests (requests w ++ [url]) w in
  match network w (requests w) url with
  | Some response => (Returns response, w')
  | None => (Throws (TypeError "fetch failed"), w')
  end.

(** [response.json()] *)
Definition json (response : Response) : M Json :=
  match body response with
  | Some j => mret j
  | None => throw (SyntaxError "Unexpected token in JSON")
  end.

(** [Array.prototype.sort] on the array at [this]: sorts it in place and
    returns the same reference. *)
Definition Array_prototype_sort (this : loc) (comparefn : Confirmation -> Confirmation -> Z)
  : M loc := fun w =>
  match heap w !! this with
  | Some items => (Returns this, set_heap (<[this := Array_sort comparefn items]> (heap w)) w)
  | None => (Throws (TypeError "Cannot read properties of undefined (reading 'sort')"), w)
  end.

(** [Array.prototype.map] on the array at [this]: a new array, held by the
    caller only. *)
Definition Array_prototype_map {B} (this : loc) (callbackfn : Confirmation -> B)
  : M (list B) := fun w =>
  match heap w !! this with
  | Some items => (Returns (map callbackfn items), w)
  | None => (Throws (TypeError "Cannot read properties of undefined (reading 'map')"), w)
  end.

(* ===================================================================== *)
(** ** The methods of [SafeClient] *)
(* ===================================================================== *)

Definition getSafeInfo (this : SafeClient) (chainId safeAddress : string) : M SafeInfo.t :=
  try_catch
    (throw_if (String.eqb chainId "" || String.eqb safeAddress "")
       (Error "Chain ID and Safe address are required");;
     throw_if (negb (addressRegex_test safeAddress))
       (Error "Invalid Safe address format");;
     response ← fetch (baseUrl this +:+ "/v1/chains/" +:+ chainId +:+ "/safes/" +:+ safeAddress);
     throw_if (status response =? 404)
       (Error ("Safe not found on chain " +:+ chainId));;
     throw_if (negb (ok response))
       (Error ("HTTP error! status: " +:+ pretty (status response)));;
     safeInfo ← json response;
     match safeInfo with
     | JsonNull => throw (TypeError "Cannot read properties of null (reading 'address')")
     | JsonSafeInfo info =>
         throw_if (negb (bool_decide (is_Some (SafeInfo.address info)))
                   || negb (bool_decide (is_Some (SafeInfo.owners info))))
           (Error "Invalid Safe data received");;
         mret info
     | JsonTransaction _ => throw (Error "Invalid Safe data received")
     end)
    (fun error => console_error "Error in getSafeInfo:" error;; throw error).

Definition domainParameters : list AbiParameter :=
  [ {| type := bytesN 32; name := "typeHash" |};
    {| type := uintN 256; name := "chainId" |};
    {| type := address; name := "safe" |} ].

Definition safeTxParameters : list AbiParameter :=
  [ {| type := bytesN 32; name := "typeHash" |};
    {| type := address; name := "to" |};
    {| type := uintN 256; name := "value" |};
    {| type := bytesN 32; name := "dataHash" |};
    {| type := uintN 8; name := "operation" |};
    {| type := uintN 256; name := "safeTxGas" |};
    {| type := uintN 256; name := "baseGas" |};
    {| type := uintN 256; name := "gasPrice" |};
    {| type := address; name := "gasToken" |};
    {| type := address; name := "refundReceiver" |};
    {| type := uintN 256; name := "nonce" |} ].

Definition calculateSafeTransactionHash (this : SafeClient)
    (safeAddress : string) (chainId : Z) (txData : SafeTransactionData.t) : M string :=
  liftO
    ((* 1. Calculate domain separator *)
     domainSeparator ←
       (encodeAbiParameters domainParameters
          [ JsString DOMAIN_SEPARATOR_TYPEHASH; JsBigInt chainId; JsString safeAddress ]
        ≫= keccak256);
     (* 2. Calculate safeTxHash *)
     dataHash ← keccak256 (SafeTransactionData.data txData);
     safeTxHash ←
       (encodeAbiParameters safeTxParameters
          [ JsString SAFE_TX_TYPEHASH;
            JsString (SafeTransactionData.to txData);
            JsBigInt (SafeTransactionData.value txData);
            JsString dataHash;
            JsNumber (SafeTransactionData.operation txData);
            JsBigInt (SafeTransactionData.safeTxGas txData);
            JsBigInt (SafeTransactionData.baseGas txData);
            JsBigInt (SafeTransactionData.gasPrice txData);
            JsString (SafeTransactionData.gasToken txData);
            JsString (SafeTransactionData.refundReceiver txData);
            JsBigInt (SafeTransactionData.nonce txData) ]
        ≫= keccak256);
     (* 3. Encode final hash *)
     encodePacked [ bytesN 1; bytesN 1; bytesN 32; bytesN 32 ]
       [ JsString "0x19"; JsString "0x01"; JsString domainSeparator; JsString safeTxHash ]
     ≫= keccak256).

Definition verifySignatures (this : SafeClient) (chainId safeTxHash : string) : M bool :=
  try_catch
    (response ← fetch (baseUrl this +:+ "/v1/chains/" +:+ chainId +:+ "/transactions/" +:+ safeTxHash);
     throw_if (negb (ok response))
       (Error ("HTTP error! status: " +:+ pretty (status response)));;
     txInfo ← json response;
     match txInfo with
     | JsonNull =>
         throw (TypeError "Cannot read properties of null (reading 'detailedExecutionInfo')")
     | JsonTransaction {| detailedExecutionInfo := Some info |} =>
         mret (Z.of_nat (length (confirmations info)) >=? confirmationsRequired info)
     | _ => throw (TypeError "Cannot read properties of undefined (reading 'confirmations')")
     end)
    (fun error => console_error "Error verifying signatures:" error;; throw error).

(** The comparison function of [combineSignatures]:
    [a.signer.value.toLowerCase().localeCompare(b.signer.value.toLowerCase())] *)
Definition compareSigners `{Collator} (a b : Confirmation) : Z :=
  localeCompare (toLowerCase (AddressInfo.value (signer a)))
                (toLowerCase (AddressInfo.value (signer b))).

Definition combineSignatures `{Collator} (this : SafeClient) (signatures : loc) : M string :=
  (* Sort signatures by signer address (required by the Safe contract) *)
  sortedSigs ← Array_prototype_sort signatures compareSigners;
  (* Concatenate signatures *)
  parts ← Array_prototype_map sortedSigs (fun sig => slice 2 (signature sig));
  mret ("0x" +:+ join parts).

(* ===================================================================== *)
(** ** The signature coordinator's record of signatures *)
(* ===================================================================== *)

(** A signature as the specification's data model has it: the signer's
    20-byte address and the 65 signature bytes. *)
Record Signature : Type := { signerAddress : list Z; signatureBytes : list Z }.

(** Modelled from the spec: the recorded signatures of the Signature
    Coordinator, per transaction hash, in order of arrival.  The source keeps
    no such record: it posts a signature to the transaction service
    ([signTransaction]) and reads the confirmations back. *)
Definition recorded (store : gmap (list Z) (list Signature)) (hash : list Z) : list Signature :=
  default [] (store !! hash).

(** Modelled from the spec: [addSignature(hash, sig)], which is missing from
    the source.  It "appends a signature to the set associated with [hash]"
    and "fails with [DuplicateSignerError] if [sig.signerAddress] already has
    a recorded signature for that hash (idempotent rejection, not silent
    overwrite)".  The result is the outcome of the call and the store after
    it. *)
Definition addSignature (hash : list Z) (sig : Signature)
    (store : gmap (list Z) (list Signature))
  : outcome unit * gmap (list Z) (list Signature) :=
  if bool_decide (signerAddress sig ∈ map signerAddress (recorded store hash))
  then (Throws DuplicateSignerError, store)
  else (Returns tt, <[hash := recorded store hash ++ [sig]]> store).

(* ===================================================================== *)
(** ** The transaction hash as the specification states it *)
(* ===================================================================== *)

(** The bytes a hex value denotes (none when it is not one). *)
Definition hexBytes (hex : string) : list Z :=
  match hexToBytes hex with
  | Returns bytes => bytes
  | Throws _ => []
  end.

(** viem [isHex], strict: [/^0x[0-9a-fA-F]*$/] *)
Definition isHex (value : string) : bool :=
  match value with
  | String "0" (String "x" digits) => forallb isHexDigit (list_ascii_of_string digits)
  | _ => false
  end.

(** *** The encoding as the specification words it *)

(** an unsigned integer in a 32-byte slot, big-endian *)
Definition spec_uint (n : Z) : list Z := be_bytes 32 n.

(** "a left-zero-padded 32-byte slot holding the 20-byte address" *)
Definition spec_address (a : string) : list Z := repeat 0 12 ++ hexBytes a.

(** the three words of "the ABI-encoded tuple (DOMAIN_SEPARATOR_TYPEHASH,
    chainId, safeAddress)" *)
Definition spec_domainWords (safeAddress : string) (chainId : Z) : list (list Z) :=
  [ hexBytes DOMAIN_SEPARATOR_TYPEHASH;
    spec_uint chainId;
    spec_address safeAddress ].

(** "Domain separator = digest of the ABI-encoded tuple" *)
Definition spec_domainSeparator (safeAddress : string) (chainId : Z) : list Z :=
  keccak_256 (concat (spec_domainWords safeAddress chainId)).

(** the eleven words of "the ABI-encoded 11-tuple (SAFE_TX_TYPEHASH, to,
    value, digest(data), operation, safeTxGas, baseGas, gasPrice, gasToken,
    refundReceiver, nonce)" *)
Definition spec_structWords (tx : SafeTransactionData.t) : list (list Z) :=
  [ hexBytes SAFE_TX_TYPEHASH;
    spec_address (SafeTransactionData.to tx);
    spec_uint (SafeTransactionData.value tx);
    keccak_256 (hexBytes (SafeTransactionData.data tx));
    spec_uint (SafeTransactionData.operation tx);
    spec_uint (SafeTransactionData.safeTxGas tx);
    spec_uint (SafeTransactionData.baseGas tx);
    spec_uint (SafeTransactionData.gasPrice tx);
    spec_address (SafeTransactionData.gasToken tx);
    spec_address (SafeTransactionData.refundReceiver tx);
    spec_uint (SafeTransactionData.nonce tx) ].

(** "Transaction struct hash = digest of the ABI-encoded 11-tuple" *)
Definition spec_structHash (tx : SafeTransactionData.t) : list Z :=
  keccak_256 (concat (spec_structWords tx)).

(** "the packed concatenation of: literal byte 0x19, literal byte 0x01, the
    32-byte domain separator, the 32-byte transaction struct hash" *)
Definition spec_preimage (safeAddress : string) (chainId : Z) (tx : SafeTransactionData.t)
  : list Z :=
  [0x19; 0x01] ++ spec_domainSeparator safeAddress chainId ++ spec_structHash tx.

(** A SafeContext of the data model: a 20-byte address and a chain id that
    fits 256 bits. *)
Record validSafeContext (safeAddress : string) (chainId : Z) : Prop := {
  valid_safeAddress : isAddress safeAddress = true;
  valid_chainId : 0 <= chainId < 2 ^ 256
}.

(** A SafeTransaction of the data model: 20-byte addresses, amounts that
    fit 256 bits, an operation that fits 8 bits, a hex payload. *)
Record validSafeTransaction (tx : SafeTransactionData.t) : Prop := {
  valid_to : isAddress (SafeTransactionData.to tx) = true;
  valid_value : 0 <= SafeTransactionData.value tx < 2 ^ 256;
  valid_data : isHex (SafeTransactionData.data tx) = true;
  valid_operation : 0 <= SafeTransactionData.operation tx < 2 ^ 8;
  valid_safeTxGas : 0 <= SafeTransactionData.safeTxGas tx < 2 ^ 256;
  valid_baseGas : 0 <= SafeTransactionData.baseGas tx < 2 ^ 256;
  valid_gasPrice : 0 <= SafeTransactionData.gasPrice tx < 2 ^ 256;
  valid_gasToken : isAddress (SafeTransactionData.gasToken tx) = true;
  valid_refundReceiver : isAddress (SafeTransactionData.refundReceiver tx) = true;
  valid_nonce : 0 <= SafeTransactionData.nonce tx < 2 ^ 256
}.

(* ===================================================================== *)
(** ** Signers, order and bundles as the specification states them *)
(* ===================================================================== *)

Definition signerValue (c : Confirmation) : string := AddressInfo.value (signer c).

(** the signer's address "as if lower-cased" *)
Definition signerKey (c : Confirmation) : string := toLowerCase (signerValue c).

(** the signer's 20-byte address *)
Definition signerBytes (c : Confirmation) : list Z := hexBytes (signerValue c).

(** The signers are addresses: "0x" and 40 hexadecimal digits, in any case. *)
Definition addressSigners (sigs : list Confirmation) : Prop :=
  Forall (fun c => addressRegex_test (signerValue c) = true) sigs.

(** "strictly ascending by signerAddress, compared case-insensitively as hex
    strings": the lower-cased addresses ascend in the order of their
    characters. *)
Definition signerLt (a b : Confirmation) : Prop :=
  String.compare (signerKey a) (signerKey b) = Lt.

Definition signerLe (a b : Confirmation) : Prop :=
  String.le (signerKey a) (signerKey b).

(** the number of distinct signers among the confirmations *)
Definition distinctSigners (sigs : list Confirmation) : nat :=
  length (remove_dups (map signerValue sigs)).

(** "each signature's raw 65-byte payload (no separators, no length
    prefixes)" behind the prefix: the hex digits of the signatures, in the
    order given *)
Definition bundleOf (sigs : list Confirmation) : string :=
  "0x" +:+ join (map (fun sig => slice 2 (signature sig)) sigs).

(** a 65-byte signature in hex: "0x" and 130 hexadecimal digits *)
Definition isSignatureHex (s : string) : bool :=
  isHex s && Nat.eqb (String.length s) 132.

(** A lower-case address: [/^0x[0-9a-f]{40}$/]. *)
Definition lowerAddress (s : string) : bool :=
  addressRegex_test s && String.eqb (toLowerCase s) s.

(** What the proofs about order ask of the runtime's collation: on
    lower-case addresses (digits and the letters a to f behind "0x") it
    orders as the code units do.  The root collation of CLDR does, and so
    does every tailoring that leaves the ASCII digits and letters alone. *)
Definition collatesHexByCodeUnit (C : Collator) : Prop :=
  forall a b : string,
    lowerAddress a = true -> lowerAddress b = true ->
    Z.sgn (@localeCompare C a b) = codeUnitCompare a b.

(** The collation by code units, an instance to run the model on. *)
Definition codeUnitCollator : Collator := codeUnitCompare.

(** the 65 bytes of a confirmation's signature *)
Definition signaturePayload (c : Confirmation) : list Z := hexBytes (signature c).

(** The signatures are 65-byte signatures in hex. *)
Definition hexSignatures (sigs : list Confirmation) : Prop :=
  Forall (fun c => isSignatureHex (signature c) = true) sigs.

(* ===================================================================== *)
(** ** Sample values *)
(* ===================================================================== *)

Definition sample_client : SafeClient := {| baseUrl := BASE_URL |}.

Definition sample_safeAddress : string := "0x5aAeb6053F3E94C9b9A09f33669435E7Ef1BeAed".

Definition zeroAddress : string := "0x0000000000000000000000000000000000000000".

(** the transfer of [exampleWorkflow]: one wei to the dead address *)
Definition sample_transfer : SafeTransactionData.t := {|
  SafeTransactionData.to := "0x000000000000000000000000000000000000dEaD";
  SafeTransactionData.value := 1;
  SafeTransactionData.data := "0x";
  SafeTransactionData.operation := 0;
  SafeTransactionData.safeTxGas := 0;
  SafeTransactionData.baseGas := 0;
  SafeTransactionData.gasPrice := 0;
  SafeTransactionData.gasToken := zeroAddress;
  SafeTransactionData.refundReceiver := zeroAddress;
  SafeTransactionData.nonce := 0
|}.

(** a world with no array, no request made, and a network that never
    answers *)
Definition offline : World :=
  {| heap := ∅; requests := []; console := []; network := fun _ _ => None |}.

(** a world whose only array, at reference 1, holds [sigs] *)
Definition holding (sigs : list Confirmation) : World :=
  {| heap := {[ 1%positive := sigs ]}; requests := []; console := [];
     network := fun _ _ => None |}.

(** a world whose network answers every request with [response] *)
Definition answering (response : Response) : World :=
  {| heap := ∅; requests := []; console := []; network := fun _ _ => Some response |}.

Definition confirmation (signerAddress signature : string) : Confirmation :=
  {| signer := {| AddressInfo.value := signerAddress;
                  AddressInfo.name := None;
                  AddressInfo.logoUri := None |};
     signature := signature |}.

(** a 65-byte signature in hex: r and s filled with one byte, v = 27 *)
Definition sample_signature (fill : Z) : string := bytesToHex (repeat fill 64 ++ [27]).

Definition confirmation_5aAe : Confirmation :=
  confirmation "0x5aAeb6053F3E94C9b9A09f33669435E7Ef1BeAed" (sample_signature 0x11).

Definition confirmation_dEaD : Confirmation :=
  confirmation "0x000000000000000000000000000000000000dEaD" (sample_signature 0x22).

(** a transaction with the given confirmations, two of them required *)
Definition two_required (confs : list Confirmation) : Response :=
  {| status := 200;
     body := Some (JsonTransaction
                     {| detailedExecutionInfo :=
                          Some {| confirmations := confs; confirmationsRequired := 2 |} |}) |}.

Definition sample_hash : list Z := repeat 0xab 32.

Definition signature_of (signer : Z) (fill : Z) : Signature :=
  {| signerAddress := repeat signer 20; signatureBytes := repeat fill 64 ++ [27] |}.

(* ===================================================================== *)
(** * Properties *)
(* ===================================================================== *)

(** *** Hexadecimal digits *)

Lemma charCodeToBase16_hexDigit (n : Z) :
  0 <= n < 16 -> charCodeToBase16 (hexDigit n) = Some n.
Proof.
  intros Hn. rewrite <- (Z2Nat.id n) by lia.
  assert (Hk : (Z.to_nat n < 16)%nat) by lia. revert Hk. generalize (Z.to_nat n). intros k Hk.
  do 16 (destruct k as [|k]; [reflexivity|]). lia.
Qed.

Lemma charCodeToBase16_range (c : ascii) (n : Z) :
  charCodeToBase16 c = Some n -> 0 <= n < 16.
Proof.
  unfold charCodeToBase16. generalize (charCode c). intros m.
  repeat case_match; intros [= <-]; lia.
Qed.

Lemma charCodeToBase16_toLowerCaseChar (c : ascii) :
  charCodeToBase16 (toLowerCaseChar c) = charCodeToBase16 c.
Proof. destruct c as [[] [] [] [] [] [] [] []]; reflexivity. Qed.

Lemma toLowerCaseChar_idemp (c : ascii) :
  toLowerCaseChar (toLowerCaseChar c) = toLowerCaseChar c.
Proof. destruct c as [[] [] [] [] [] [] [] []]; reflexivity. Qed.

Lemma isHexDigit_toLowerCaseChar (c : ascii) :
  isHexDigit (toLowerCaseChar c) = isHexDigit c.
Proof. unfold isHexDigit. by rewrite charCodeToBase16_toLowerCaseChar. Qed.

(** *** Strings *)

Lemma list_ascii_of_string_app (s t : string) :
  list_ascii_of_string (s +:+ t) = list_ascii_of_string s ++ list_ascii_of_string t.
Proof. induction s as [|c s IH]; [done|]. cbn. by rewrite <- IH. Qed.

Lemma string_length_list (s : string) :
  String.length s = length (list_ascii_of_string s).
Proof. induction s; cbn; congruence. Qed.

Lemma string_length_app (s t : string) :
  String.length (s +:+ t) = (String.length s + String.length t)%nat.
Proof. by rewrite !string_length_list, list_ascii_of_string_app, length_app. Qed.

Lemma list_ascii_of_string_inj (s t : string) :
  list_ascii_of_string s = list_ascii_of_string t -> s = t.
Proof.
  intros H. rewrite <- (string_of_list_ascii_of_string s), <- (string_of_list_ascii_of_string t).
  by rewrite H.
Qed.

Lemma list_ascii_of_toLowerCase (s : string) :
  list_ascii_of_string (toLowerCase s) = map toLowerCaseChar (list_ascii_of_string s).
Proof. induction s; cbn; congruence. Qed.

Lemma toLowerCase_length (s : string) : String.length (toLowerCase s) = String.length s.
Proof. by rewrite !string_length_list, list_ascii_of_toLowerCase, length_map. Qed.

Lemma toLowerCase_idemp (s : string) : toLowerCase (toLowerCase s) = toLowerCase s.
Proof. induction s; cbn; [done|]. by rewrite toLowerCaseChar_idemp, IHs. Qed.

Lemma slice_toLowerCase (n : nat) (s : string) :
  slice n (toLowerCase s) = toLowerCase (slice n s).
Proof. revert s. induction n; intros [|c s]; cbn; auto. Qed.

Lemma slice_length (n : nat) (s : string) :
  String.length (slice n s) = (String.length s - n)%nat.
Proof. revert s. induction n; intros [|c s]; cbn; auto with lia. Qed.

Lemma list_ascii_of_slice (n : nat) (s : string) :
  list_ascii_of_string (slice n s) = drop n (list_ascii_of_string s).
Proof. revert s. induction n; intros [|c s]; cbn; auto. Qed.

(** *** Reading hex *)

Lemma parse_hex_pairs_toLowerCase (cs : list ascii) :
  parse_hex_pairs (map toLowerCaseChar cs) = parse_hex_pairs cs.
Proof.
  induction cs as [cs IH] using (induction_ltof1 _ (@length ascii)). unfold ltof in IH.
  destruct cs as [|h [|l rest]]; [done..|]. cbn [map parse_hex_pairs].
  rewrite !charCodeToBase16_toLowerCaseChar, IH by (cbn; lia). done.
Qed.

Lemma parse_hex_pairs_app (cs ds : list ascii) (bs : list Z) :
  parse_hex_pairs cs = Some bs ->
  parse_hex_pairs (cs ++ ds) = (bs ++.) <$> parse_hex_pairs ds.
Proof.
  revert bs. induction cs as [cs IH] using (induction_ltof1 _ (@length ascii)). unfold ltof in IH.
  intros bs. destruct cs as [|h [|l rest]]; cbn [parse_hex_pairs app].
  - intros [= <-]. by destruct (parse_hex_pairs ds).
  - done.
  - destruct (charCodeToBase16 h), (charCodeToBase16 l); try done.
    destruct (parse_hex_pairs rest) as [r|] eqn:Hr; [|done]. intros [= <-].
    rewrite (IH rest ltac:(cbn; lia) r Hr). by destruct (parse_hex_pairs ds).
Qed.

Lemma parse_hex_pairs_total (cs : list ascii) :
  Nat.even (length cs) = true -> forallb isHexDigit cs = true ->
  exists bs, parse_hex_pairs cs = Some bs /\ (2 * length bs = length cs)%nat /\ Forall is_byte bs.
Proof.
  induction cs as [cs IH] using (induction_ltof1 _ (@length ascii)). unfold ltof in IH.
  destruct cs as [|h [|l rest]]; [by exists []|done|].
  cbn [length forallb parse_hex_pairs]. intros Hev Hhex.
  apply andb_true_iff in Hhex as [Hh Hhex]. apply andb_true_iff in Hhex as [Hl Hhex].
  destruct (IH rest ltac:(cbn; lia) Hev Hhex) as (r & -> & Hlen & Hr).
  unfold isHexDigit in Hh, Hl.
  destruct (charCodeToBase16 h) as [a|] eqn:Ha; [|done].
  destruct (charCodeToBase16 l) as [b|] eqn:Hb; [|done].
  apply charCodeToBase16_range in Ha, Hb.
  exists (a * 16 + b :: r). split; [done|]. split; [cbn; lia|].
  constructor; [unfold is_byte; lia | done].
Qed.

Lemma parse_hex_of_bytes (bs : list Z) :
  Forall is_byte bs -> parse_hex_pairs (list_ascii_of_string (hex_of_bytes bs)) = Some bs.
Proof.
  induction 1 as [|b bs Hb _ IH]; [done|]. cbn [hex_of_bytes list_ascii_of_string parse_hex_pairs].
  unfold is_byte in Hb.
  assert (Hhi : 0 <= b / 16 < 16)
    by (split; [apply Z.div_pos | apply Z.div_lt_upper_bound]; lia).
  assert (Hlo : 0 <= b mod 16 < 16) by (apply Z.mod_pos_bound; lia).
  rewrite !charCodeToBase16_hexDigit, IH by done.
  do 2 f_equal. pose proof (Z.div_mod b 16). lia.
Qed.

Lemma hex_of_bytes_length (bs : list Z) :
  String.length (hex_of_bytes bs) = (2 * length bs)%nat.
Proof. induction bs; cbn; [done|]. rewrite IHbs. lia. Qed.

Lemma hex_of_bytes_app (bs cs : list Z) :
  hex_of_bytes (bs ++ cs) = hex_of_bytes bs +:+ hex_of_bytes cs.
Proof. induction bs; cbn; [done|]. by rewrite IHbs. Qed.

Lemma odd_double (n : nat) : Nat.odd (2 * n) = false.
Proof. rewrite <- Nat.negb_even, Nat.even_mul. done. Qed.

Lemma hexToBytes_bytesToHex (bs : list Z) :
  Forall is_byte bs -> hexToBytes (bytesToHex bs) = Returns bs.
Proof.
  intros Hbs. unfold hexToBytes, bytesToHex.
  change (slice 2 ("0x" +:+ hex_of_bytes bs)) with (hex_of_bytes bs).
  by rewrite hex_of_bytes_length, odd_double, parse_hex_of_bytes.
Qed.

(** *** Keccak-256 yields 32 bytes *)

Lemma lane_bytes_length (l : Z) : length (lane_bytes l) = 8%nat.
Proof. unfold lane_bytes. by rewrite length_map, length_seq. Qed.

Lemma lane_bytes_bytes (l : Z) : Forall is_byte (lane_bytes l).
Proof.
  unfold lane_bytes. apply Forall_map, Forall_forall. intros k _. unfold is_byte.
  change 255 with (Z.ones 8). rewrite Z.land_ones by lia. apply Z.mod_pos_bound. lia.
Qed.

Lemma keccak_256_length (msg : list Z) : length (keccak_256 msg) = 32%nat.
Proof.
  unfold keccak_256. generalize (absorb (length (msg ++ pad101 (length msg)) / rate) (repeat 0 25)
                                   (msg ++ pad101 (length msg))).
  intros st. cbn [seq flat_map]. by rewrite !length_app, !lane_bytes_length.
Qed.

Lemma keccak_256_bytes (msg : list Z) : Forall is_byte (keccak_256 msg).
Proof.
  unfold keccak_256. generalize (absorb (length (msg ++ pad101 (length msg)) / rate) (repeat 0 25)
                                   (msg ++ pad101 (length msg))).
  intros st. cbn [seq flat_map]. repeat apply Forall_app_2; auto using lane_bytes_bytes.
Qed.

(** *** Big-endian words *)

Lemma be_bytes_length (len : nat) (n : Z) : length (be_bytes len n) = len.
Proof. revert n. induction len; intros n; cbn; [done|]. rewrite length_app, IHlen. cbn. lia. Qed.

Lemma be_bytes_bytes (len : nat) (n : Z) : Forall is_byte (be_bytes len n).
Proof.
  revert n. induction len; intros n; cbn; [done|].
  apply Forall_app_2; [done|]. constructor; [|done]. apply Z.mod_pos_bound. lia.
Qed.

Lemma be_value_snoc (bs : list Z) (b : Z) : be_value (bs ++ [b]) = be_value bs * 256 + b.
Proof. unfold be_value. by rewrite fold_left_app. Qed.

(** the word of a number in range denotes that number *)
Lemma be_value_be_bytes (len : nat) (n : Z) :
  0 <= n < 256 ^ Z.of_nat len -> be_value (be_bytes len n) = n.
Proof.
  revert n. induction len as [|len IH]; intros n Hn.
  - cbn in *. unfold be_value. cbn. lia.
  - cbn [be_bytes]. rewrite be_value_snoc, IH.
    + pose proof (Z.div_mod n 256). lia.
    + rewrite Nat2Z.inj_succ, Z.pow_succ_r in Hn by lia.
      split; [apply Z.div_pos; lia | apply Z.div_lt_upper_bound; lia].
Qed.

(** *** Addresses *)

Lemma isAddress_regex (a : string) : isAddress a = true -> addressRegex_test a = true.
Proof. unfold isAddress. by destruct (addressRegex_test a). Qed.

Lemma isHex_hexToBytes (value : string) :
  isHex value = true ->
  exists bytes, hexToBytes value = Returns bytes /\ Forall is_byte bytes /\
                (2 * length bytes = String.length value - 2 + String.length value mod 2)%nat.
Proof.
  destruct value as [|c0 value]; [done|].
  destruct c0 as [[] [] [] [] [] [] [] []]; cbn [isHex]; try done.
  destruct value as [|c1 digits]; [done|].
  destruct c1 as [[] [] [] [] [] [] [] []]; try done.
  intros Hhex. unfold hexToBytes. cbn [slice String.length].
  destruct (Nat.odd (String.length digits)) eqn:Hodd.
  - change ("0" +:+ digits) with (String "0" digits).
    destruct (parse_hex_pairs_total (list_ascii_of_string (String "0" digits)))
      as (bs & -> & Hlen & Hbs).
    + cbn [list_ascii_of_string length]. rewrite <- string_length_list.
      by rewrite Nat.even_succ.
    + cbn [list_ascii_of_string forallb]. by rewrite Hhex.
    + exists bs. split; [done|]. split; [done|].
      cbn [list_ascii_of_string length] in Hlen. rewrite <- string_length_list in Hlen.
      apply Nat.odd_spec in Hodd as [k Hk]. rewrite Hlen, Hk.
      replace (S (S (2 * k + 1))) with (1 + (k + 1) * 2)%nat by lia.
      rewrite Nat.Div0.mod_add. cbn. lia.
  - destruct (parse_hex_pairs_total (list_ascii_of_string digits)) as (bs & -> & Hlen & Hbs).
    + rewrite <- string_length_list. by rewrite <- Nat.negb_odd, Hodd.
    + done.
    + exists bs. split; [done|]. split; [done|].
      rewrite <- string_length_list in Hlen. rewrite Hlen.
      rewrite <- Nat.negb_even in Hodd. apply negb_false_iff, Nat.even_spec in Hodd as [k Hk].
      rewrite Hk. replace (S (S (2 * k))) with (0 + (k + 1) * 2)%nat by lia.
      rewrite Nat.Div0.mod_add. cbn. lia.
Qed.

Lemma addressRegex_isHex (a : string) : addressRegex_test a = true -> isHex a = true.
Proof.
  destruct a as [|c0 a]; [done|].
  destruct c0 as [[] [] [] [] [] [] [] []]; cbn [addressRegex_test]; try done.
  destruct a as [|c1 digits]; [done|].
  destruct c1 as [[] [] [] [] [] [] [] []]; try done. cbn [isHex].
  by intros [_ ?]%andb_true_iff.
Qed.

Lemma addressRegex_length (a : string) : addressRegex_test a = true -> String.length a = 42%nat.
Proof.
  destruct a as [|c0 a]; [done|].
  destruct c0 as [[] [] [] [] [] [] [] []]; cbn [addressRegex_test]; try done.
  destruct a as [|c1 digits]; [done|].
  destruct c1 as [[] [] [] [] [] [] [] []]; try done. cbn [isHex].
  intros [Hlen%Nat.eqb_eq _]%andb_true_iff. cbn [String.length]. by rewrite Hlen.
Qed.

Lemma hexToBytes_toLowerCase (value : string) (bytes : list Z) :
  hexToBytes value = Returns bytes -> hexToBytes (toLowerCase value) = Returns bytes.
Proof.
  unfold hexToBytes. rewrite slice_toLowerCase, toLowerCase_length.
  destruct (Nat.odd (String.length (slice 2 value))).
  - change ("0" +:+ toLowerCase (slice 2 value)) with (toLowerCase ("0" +:+ slice 2 value)).
    rewrite list_ascii_of_toLowerCase, parse_hex_pairs_toLowerCase.
    by destruct (parse_hex_pairs _).
  - rewrite list_ascii_of_toLowerCase, parse_hex_pairs_toLowerCase.
    by destruct (parse_hex_pairs _).
Qed.

(** an address denotes 20 bytes, whatever the case of its digits *)
Lemma address_bytes (a : string) :
  addressRegex_test a = true ->
  hexToBytes a = Returns (hexBytes a) /\ length (hexBytes a) = 20%nat /\ Forall is_byte (hexBytes a).
Proof.
  intros Ha. destruct (isHex_hexToBytes a (addressRegex_isHex a Ha)) as (bs & Hbs & Hbyte & Hlen).
  unfold hexBytes. rewrite Hbs. rewrite (addressRegex_length a Ha) in Hlen.
  split; [done|]. split; [|done]. cbn in Hlen. lia.
Qed.

Lemma hexBytes_toLowerCase (a : string) :
  addressRegex_test a = true -> hexBytes (toLowerCase a) = hexBytes a.
Proof.
  intros Ha. destruct (address_bytes a Ha) as (Hbs & _).
  unfold hexBytes at 1. by rewrite (hexToBytes_toLowerCase _ _ Hbs).
Qed.

(** *** viem's encoders on well-formed values *)

Lemma string_length_bytesToHex (bs : list Z) :
  String.length (bytesToHex bs) = (2 + 2 * length bs)%nat.
Proof. unfold bytesToHex. by rewrite string_length_app, hex_of_bytes_length. Qed.

Lemma startsWith_bytesToHex (bs : list Z) : startsWith "0x" (bytesToHex bs) = true.
Proof.
  unfold startsWith, bytesToHex.
  change ("0x" +:+ hex_of_bytes bs) with (String "0" (String "x" (hex_of_bytes bs))).
  cbn. by destruct (hex_of_bytes bs).
Qed.

Lemma size_bytesToHex (bs : list Z) : size (bytesToHex bs) = length bs.
Proof.
  unfold size. rewrite startsWith_bytesToHex, string_length_bytesToHex.
  replace (2 + 2 * length bs - 2 + 1)%nat with (S (2 * length bs)) by lia.
  apply Nat.div2_succ_double.
Qed.

Lemma keccak256_bytesToHex (bs : list Z) :
  Forall is_byte bs -> keccak256 (bytesToHex bs) = Returns (bytesToHex (keccak_256 bs)).
Proof.
  intros Hbs. unfold keccak256. by rewrite startsWith_bytesToHex, hexToBytes_bytesToHex.
Qed.

Lemma isHex_startsWith (value : string) : isHex value = true -> startsWith "0x" value = true.
Proof.
  destruct value as [|c0 value]; [done|].
  destruct c0 as [[] [] [] [] [] [] [] []]; cbn [isHex]; try done.
  destruct value as [|c1 digits]; [done|].
  destruct c1 as [[] [] [] [] [] [] [] []]; try done.
  intros _. cbn. by destruct digits.
Qed.

Lemma keccak256_isHex (value : string) :
  isHex value = true -> keccak256 value = Returns (bytesToHex (keccak_256 (hexBytes value))).
Proof.
  intros Hhex. destruct (isHex_hexToBytes value Hhex) as (bs & Hbs & _).
  unfold keccak256, hexBytes. by rewrite (isHex_startsWith value Hhex), Hbs.
Qed.

Lemma mapM2_cons {A B C} (f : A -> B -> outcome C) x y xs ys c cs :
  f x y = Returns c -> mapM2 f xs ys = Returns cs ->
  mapM2 f (x :: xs) (y :: ys) = Returns (c :: cs).
Proof. intros Hc Hcs. cbn [mapM2]. by rewrite Hc, Hcs. Qed.

Lemma mapM2_nil {A B C} (f : A -> B -> outcome C) : mapM2 f [] [] = Returns [].
Proof. done. Qed.

Lemma prepareParam_bytes32 (name : string) (bs : list Z) :
  length bs = 32%nat -> Forall is_byte bs ->
  prepareParam {| type := bytesN 32; name := name |} (JsString (bytesToHex bs)) = Returns bs.
Proof.
  intros Hlen Hbs. cbn [prepareParam type]. unfold encodeBytes.
  rewrite size_bytesToHex, Hlen, hexToBytes_bytesToHex by done. cbn.
  unfold padRight. rewrite Hlen. cbn. by rewrite app_nil_r.
Qed.

Lemma prepareParam_uint (name : string) (bits : nat) (n : Z) :
  0 <= n < 2 ^ Z.of_nat bits ->
  prepareParam {| type := uintN bits; name := name |} (JsBigInt n) = Returns (spec_uint n).
Proof.
  intros Hn. cbn [prepareParam type]. unfold encodeNumber.
  by rewrite (proj2 (Z.leb_le 0 n)), (proj2 (Z.ltb_lt n _)) by lia.
Qed.

Lemma prepareParam_number (name : string) (bits : nat) (n : Z) :
  0 <= n < 2 ^ Z.of_nat bits ->
  prepareParam {| type := uintN bits; name := name |} (JsNumber n) = Returns (spec_uint n).
Proof.
  intros Hn. cbn [prepareParam type]. unfold encodeNumber.
  by rewrite (proj2 (Z.leb_le 0 n)), (proj2 (Z.ltb_lt n _)) by lia.
Qed.

Lemma prepareParam_address (name : string) (a : string) :
  isAddress a = true ->
  prepareParam {| type := address; name := name |} (JsString a) = Returns (spec_address a).
Proof.
  intros Ha. cbn [prepareParam type]. unfold encodeAddress. rewrite Ha.
  destruct (address_bytes a (isAddress_regex a Ha)) as (Hbs & Hlen & _).
  rewrite (hexToBytes_toLowerCase _ _ Hbs). cbn.
  unfold padLeft, spec_address. by rewrite Hlen.
Qed.

Lemma encodeAbiParameters_words (params : list AbiParameter) (values : list JsValue)
    (words : list (list Z)) :
  length params = length values ->
  mapM2 prepareParam params values = Returns words ->
  encodeAbiParameters params values = Returns (bytesToHex (concat words)).
Proof.
  intros Hlen Hwords. unfold encodeAbiParameters.
  by rewrite Hlen, Nat.eqb_refl, Hwords.
Qed.

Lemma encodePacked_bytes (n : nat) (bs : list Z) :
  length bs = n -> Forall is_byte bs ->
  encodePacked_one (bytesN n) (JsString (bytesToHex bs)) = Returns bs.
Proof.
  intros Hlen Hbs. cbn [encodePacked_one].
  rewrite string_length_bytesToHex, Hlen.
  replace (2 + 2 * n - 2)%nat with (2 * n)%nat by lia.
  by rewrite Nat.eqb_refl, hexToBytes_bytesToHex.
Qed.

Lemma spec_address_bytes (a : string) :
  isAddress a = true -> length (spec_address a) = 32%nat /\ Forall is_byte (spec_address a).
Proof.
  intros Ha. destruct (address_bytes a (isAddress_regex a Ha)) as (_ & Hlen & Hbs).
  unfold spec_address. split.
  - by rewrite length_app, repeat_length, Hlen.
  - apply Forall_app_2; [|done]. by repeat constructor.
Qed.

Lemma spec_uint_bytes (n : Z) : length (spec_uint n) = 32%nat /\ Forall is_byte (spec_uint n).
Proof. split; [apply be_bytes_length | apply be_bytes_bytes]. Qed.

Lemma typehash_bytes :
  DOMAIN_SEPARATOR_TYPEHASH = bytesToHex (hexBytes DOMAIN_SEPARATOR_TYPEHASH) /\
  SAFE_TX_TYPEHASH = bytesToHex (hexBytes SAFE_TX_TYPEHASH) /\
  length (hexBytes DOMAIN_SEPARATOR_TYPEHASH) = 32%nat /\
  length (hexBytes SAFE_TX_TYPEHASH) = 32%nat /\
  Forall is_byte (hexBytes DOMAIN_SEPARATOR_TYPEHASH) /\
  Forall is_byte (hexBytes SAFE_TX_TYPEHASH).
Proof.
  repeat split; try reflexivity.
  - destruct (isHex_hexToBytes DOMAIN_SEPARATOR_TYPEHASH eq_refl) as (bs & Hbs & Hbyte & _).
    unfold hexBytes. by rewrite Hbs.
  - destruct (isHex_hexToBytes SAFE_TX_TYPEHASH eq_refl) as (bs & Hbs & Hbyte & _).
    unfold hexBytes. by rewrite Hbs.
Qed.

(** one word of an ABI tuple, from the hypotheses at hand *)
Ltac abi_word :=
  lazymatch goal with
  | |- prepareParam {| type := address; name := _ |} (JsString _) = _ =>
      apply prepareParam_address; assumption
  | |- prepareParam {| type := uintN _; name := _ |} (JsBigInt _) = _ =>
      apply prepareParam_uint; assumption
  | |- prepareParam {| type := uintN _; name := _ |} (JsNumber _) = _ =>
      apply prepareParam_number; assumption
  | |- prepareParam {| type := bytesN 32; name := _ |} (JsString (bytesToHex (keccak_256 _))) = _ =>
      apply prepareParam_bytes32; [apply keccak_256_length | apply keccak_256_bytes]
  | |- prepareParam {| type := bytesN 32; name := _ |} (JsString (bytesToHex _)) = _ =>
      apply prepareParam_bytes32; assumption
  end.

(** the length and the byte range of one word *)
Ltac abi_bytes :=
  lazymatch goal with
  | |- length (spec_uint _) = _ => apply spec_uint_bytes
  | |- Forall is_byte (spec_uint _) => apply spec_uint_bytes
  | |- length (spec_address _) = _ => apply spec_address_bytes; assumption
  | |- Forall is_byte (spec_address _) => apply spec_address_bytes; assumption
  | |- length (keccak_256 _) = _ => apply keccak_256_length
  | |- Forall is_byte (keccak_256 _) => apply keccak_256_bytes
  | |- Forall _ [] => constructor
  | |- _ => assumption
  end.

Lemma spec_domainWords_bytes (safeAddress : string) (chainId : Z) :
  validSafeContext safeAddress chainId ->
  Forall is_byte (concat (spec_domainWords safeAddress chainId)).
Proof.
  intros [Ha Hc]. destruct typehash_bytes as (_ & _ & _ & _ & Hdb & _).
  unfold spec_domainWords. cbn [concat]. rewrite !Forall_app.
  repeat apply conj; abi_bytes.
Qed.

Lemma spec_structWords_bytes (tx : SafeTransactionData.t) :
  validSafeTransaction tx -> Forall is_byte (concat (spec_structWords tx)).
Proof.
  intros []. destruct typehash_bytes as (_ & _ & _ & _ & _ & Hsb).
  unfold spec_structWords. cbn [concat]. rewrite !Forall_app.
  repeat apply conj; abi_bytes.
Qed.

Lemma domainSeparator_hex (safeAddress : string) (chainId : Z) :
  validSafeContext safeAddress chainId ->
  encodeAbiParameters domainParameters
    [ JsString DOMAIN_SEPARATOR_TYPEHASH; JsBigInt chainId; JsString safeAddress ]
  ≫= keccak256
  = Returns (bytesToHex (spec_domainSeparator safeAddress chainId)).
Proof.
  intros Hctx. pose proof (spec_domainWords_bytes _ _ Hctx) as Hbytes. destruct Hctx as [Ha Hc].
  destruct typehash_bytes as (Hd & _ & Hdl & _ & Hdb & _).
  rewrite (encodeAbiParameters_words _ _ (spec_domainWords safeAddress chainId)).
  - unfold mbind, outcome_bind. by rewrite keccak256_bytesToHex.
  - done.
  - unfold domainParameters, spec_domainWords. rewrite Hd at 1.
    repeat (apply mapM2_cons; [abi_word|]). done.
Qed.

Lemma structHash_hex (tx : SafeTransactionData.t) :
  validSafeTransaction tx ->
  encodeAbiParameters safeTxParameters
    [ JsString SAFE_TX_TYPEHASH;
      JsString (SafeTransactionData.to tx);
      JsBigInt (SafeTransactionData.value tx);
      JsString (bytesToHex (keccak_256 (hexBytes (SafeTransactionData.data tx))));
      JsNumber (SafeTransactionData.operation tx);
      JsBigInt (SafeTransactionData.safeTxGas tx);
      JsBigInt (SafeTransactionData.baseGas tx);
      JsBigInt (SafeTransactionData.gasPrice tx);
      JsString (SafeTransactionData.gasToken tx);
      JsString (SafeTransactionData.refundReceiver tx);
      JsBigInt (SafeTransactionData.nonce tx) ]
  ≫= keccak256
  = Returns (bytesToHex (spec_structHash tx)).
Proof.
  intros Htx. pose proof (spec_structWords_bytes tx Htx) as Hbytes. destruct Htx.
  destruct typehash_bytes as (_ & Hs & _ & Hsl & _ & Hsb).
  rewrite (encodeAbiParameters_words _ _ (spec_structWords tx)).
  - unfold mbind, outcome_bind. by rewrite keccak256_bytesToHex.
  - done.
  - unfold safeTxParameters, spec_structWords. rewrite Hs at 1.
    repeat (apply mapM2_cons; [abi_word|]). done.
Qed.

Lemma finalHash_hex (domainSeparator structHash : list Z) :
  encodePacked [ bytesN 1; bytesN 1; bytesN 32; bytesN 32 ]
    [ JsString "0x19"; JsString "0x01";
      JsString (bytesToHex (keccak_256 domainSeparator));
      JsString (bytesToHex (keccak_256 structHash)) ]
  ≫= keccak256
  = Returns (bytesToHex (keccak_256 ([0x19; 0x01] ++ keccak_256 domainSeparator
                                       ++ keccak_256 structHash))).
Proof.
  unfold encodePacked. cbn [length Nat.eqb negb].
  rewrite (mapM2_cons encodePacked_one _ _ _ _ [0x19]
             [[0x01]; keccak_256 domainSeparator; keccak_256 structHash]).
  - unfold mbind, outcome_bind. rewrite keccak256_bytesToHex.
    + cbn [concat app]. by rewrite app_nil_r.
    + cbn [concat]. rewrite !Forall_app.
      repeat split; first [ apply keccak_256_bytes | by repeat constructor ].
  - done.
  - apply mapM2_cons; [done|].
    repeat (apply mapM2_cons;
            [apply encodePacked_bytes; [apply keccak_256_length | apply keccak_256_bytes]|]).
    done.
Qed.

Lemma calculateSafeTransactionHash_returns (this : SafeClient) (safeAddress : string)
    (chainId : Z) (txData : SafeTransactionData.t) (w : World) :
  validSafeContext safeAddress chainId ->
  validSafeTransaction txData ->
  calculateSafeTransactionHash this safeAddress chainId txData w
    = (Returns (bytesToHex (keccak_256 (spec_preimage safeAddress chainId txData))), w).
Proof.
  intros Hctx Htx. unfold calculateSafeTransactionHash, liftO. f_equal.
  rewrite (domainSeparator_hex _ _ Hctx). unfold mbind at 1, outcome_bind at 1.
  rewrite (keccak256_isHex _ (valid_data _ Htx)). unfold mbind at 1, outcome_bind at 1.
  rewrite (structHash_hex _ Htx). unfold mbind at 1, outcome_bind at 1.
  apply finalHash_hex.
Qed.

(** C1 — For every SafeContext and every SafeTransaction of the data model,
    [calculateSafeTransactionHash] returns the Keccak-256 digest of the
    66-byte packed concatenation 0x19, 0x01, domain separator, struct hash.
    The domain separator is the digest of the three ABI words (type hash,
    chain id as uint256, Safe address), the struct hash the digest of the
    eleven ABI words (type hash, to, value, digest of data, operation,
    safeTxGas, baseGas, gasPrice, gasToken, refundReceiver, nonce); a
    number's word is its 32 big-endian bytes, an address's word 12 zero
    bytes and its 20 bytes. *)
Theorem calculateSafeTransactionHash_eip712 (this : SafeClient) (safeAddress : string)
    (chainId : Z) (txData : SafeTransactionData.t) (w : World) :
  validSafeContext safeAddress chainId ->
  validSafeTransaction txData ->
  calculateSafeTransactionHash this safeAddress chainId txData w
    = (Returns (bytesToHex (keccak_256 (spec_preimage safeAddress chainId txData))), w)
  /\ length (spec_preimage safeAddress chainId txData) = 66%nat
  /\ Forall (fun word => length word = 32%nat) (spec_domainWords safeAddress chainId)
  /\ Forall (fun word => length word = 32%nat) (spec_structWords txData)
  /\ be_value (spec_uint chainId) = chainId
  /\ be_value (spec_uint (SafeTransactionData.operation txData))
       = SafeTransactionData.operation txData
  /\ length (hexBytes safeAddress) = 20%nat.
Proof.
  intros Hctx Htx. split.
  - by apply calculateSafeTransactionHash_returns.
  - destruct Hctx as [Ha Hc]. destruct Htx.
    destruct typehash_bytes as (_ & _ & Hdl & Hsl & _ & _).
    destruct (address_bytes safeAddress (isAddress_regex _ Ha)) as (_ & Hlen & _).
    repeat apply conj.
    + unfold spec_preimage, spec_domainSeparator, spec_structHash. cbn [app length].
      by rewrite !length_app, !keccak_256_length.
    + unfold spec_domainWords. repeat (apply Forall_cons_2; [abi_bytes|]). constructor.
    + unfold spec_structWords. repeat (apply Forall_cons_2; [abi_bytes|]). constructor.
    + apply be_value_be_bytes. change (256 ^ Z.of_nat 32) with (2 ^ 256). done.
    + apply be_value_be_bytes. change (256 ^ Z.of_nat 32) with (2 ^ 256). lia.
    + done.
Qed.

(** C2 — [calculateSafeTransactionHash] is deterministic: on a valid
    SafeContext and SafeTransaction, two invocations, on any two client
    instances and in any two states of the world, return the same 32-byte
    hash; neither changes the world it runs in (no request is issued, nothing
    is logged, no array is touched), so no state is carried from one call to
    the next. *)
Theorem calculateSafeTransactionHash_deterministic (this1 this2 : SafeClient)
    (w1 w2 : World) (safeAddress : string) (chainId : Z) (txData : SafeTransactionData.t) :
  validSafeContext safeAddress chainId ->
  validSafeTransaction txData ->
  exists hash : list Z,
    length hash = 32%nat /\
    hexToBytes (bytesToHex hash) = Returns hash /\
    calculateSafeTransactionHash this1 safeAddress chainId txData w1
      = (Returns (bytesToHex hash), w1) /\
    calculateSafeTransactionHash this2 safeAddress chainId txData w2
      = (Returns (bytesToHex hash), w2).
Proof.
  intros Hctx Htx. exists (keccak_256 (spec_preimage safeAddress chainId txData)).
  repeat apply conj.
  - apply keccak_256_length.
  - apply hexToBytes_bytesToHex, keccak_256_bytes.
  - by apply calculateSafeTransactionHash_returns.
  - by apply calculateSafeTransactionHash_returns.
Qed.

(** *** [Array.prototype.sort] *)

Section sort.
Context {A : Type} (comparefn : A -> A -> Z).

Lemma sort_insert_Permutation (x : A) (l : list A) : sort_insert comparefn x l ≡ₚ x :: l.
Proof.
  induction l as [|y l IH]; cbn; [done|].
  destruct (comparefn x y <=? 0); [done|]. rewrite IH. apply Permutation_swap.
Qed.

Lemma Array_sort_cons (x : A) (l : list A) :
  Array_sort comparefn (x :: l) = sort_insert comparefn x (Array_sort comparefn l).
Proof. done. Qed.

Lemma Array_sort_Permutation (l : list A) : Array_sort comparefn l ≡ₚ l.
Proof.
  induction l as [|x l IH]; [done|].
  rewrite Array_sort_cons, sort_insert_Permutation. by rewrite IH.
Qed.

Lemma Array_sort_length (l : list A) : length (Array_sort comparefn l) = length l.
Proof. by rewrite Array_sort_Permutation. Qed.

(** Two comparison functions that agree in sign on the elements sort alike. *)
Lemma sort_insert_ext (comparefn' : A -> A -> Z) (x : A) (l : list A) :
  (forall y, y ∈ l -> (comparefn x y <=? 0) = (comparefn' x y <=? 0)) ->
  sort_insert comparefn x l = sort_insert comparefn' x l.
Proof.
  induction l as [|y l IH]; intros Hext; cbn; [done|].
  rewrite (Hext y) by left. rewrite IH; [done|]. intros z Hz. apply Hext. by right.
Qed.

Lemma Array_sort_ext (comparefn' : A -> A -> Z) (l : list A) :
  (forall x y, x ∈ l -> y ∈ l -> (comparefn x y <=? 0) = (comparefn' x y <=? 0)) ->
  Array_sort comparefn l = Array_sort comparefn' l.
Proof.
  induction l as [|x l IH]; intros Hext; [done|].
  assert (Hl : Array_sort comparefn l = Array_sort comparefn' l).
  { apply IH. intros y z Hy Hz. apply Hext; by right. }
  rewrite Array_sort_cons, Hl.
  change (Array_sort comparefn' (x :: l)) with (sort_insert comparefn' x (Array_sort comparefn' l)).
  apply sort_insert_ext. intros y Hy. apply Hext; [by left|].
  right. by rewrite <- Hl, Array_sort_Permutation in Hy.
Qed.

(** For a comparison function that reports a total preorder, the result is
    sorted. *)
Context (R : relation A) `{!Transitive R, !Total R}.
Context (comparefn_R : forall x y, comparefn x y <= 0 <-> R x y).

Lemma sort_insert_sorted (x : A) (l : list A) :
  StronglySorted R l -> StronglySorted R (sort_insert comparefn x l).
Proof.
  induction 1 as [|y l Hl IH Hy]; cbn; [repeat constructor|].
  destruct (Z.leb_spec (comparefn x y) 0) as [Hxy|Hxy].
  - apply comparefn_R in Hxy. constructor; [by constructor|].
    constructor; [done|]. eapply Forall_impl; [done|]. intros z Hz. by etrans.
  - constructor; [done|]. rewrite sort_insert_Permutation. constructor; [|done].
    destruct (total R x y) as [Hx|]; [|done]. apply comparefn_R in Hx. lia.
Qed.

Lemma Array_sort_sorted (l : list A) : StronglySorted R (Array_sort comparefn l).
Proof.
  induction l; [constructor|]. rewrite Array_sort_cons. by apply sort_insert_sorted.
Qed.

(** An array that is in order already is left as it is; a sorted result equal
    to the input means the input was in order. *)
Lemma Array_sort_fixed (l : list A) : Array_sort comparefn l = l <-> StronglySorted R l.
Proof.
  split; [intros <-; apply Array_sort_sorted|].
  induction 1 as [|x l Hl IH Hx]; [done|]. rewrite Array_sort_cons, IH.
  destruct Hx as [|y l Hxy _]; cbn; [done|].
  apply comparefn_R, Z.leb_le in Hxy. by rewrite Hxy.
Qed.

End sort.

Lemma NoDup_map_eq {A B} (f : A -> B) (l : list A) (x y : A) :
  NoDup (map f l) -> x ∈ l -> y ∈ l -> f x = f y -> x = y.
Proof.
  induction l as [|z l IH]; cbn; intros Hnd Hx Hy Hf; [by apply elem_of_nil in Hx|].
  apply NoDup_cons in Hnd as [Hz Hnd].
  apply elem_of_cons in Hx as [->|Hx]; apply elem_of_cons in Hy as [->|Hy]; auto.
  - destruct Hz. rewrite Hf. apply list_elem_of_In, in_map, list_elem_of_In, Hy.
  - destruct Hz. rewrite <- Hf. apply list_elem_of_In, in_map, list_elem_of_In, Hx.
Qed.

Lemma NoDup_map_Permutation {A B} (f : A -> B) (l k : list A) :
  l ≡ₚ k -> NoDup (map f l) -> NoDup (map f k).
Proof. intros Hp. by rewrite (Permutation_map f Hp). Qed.

(** *** The order of the signers *)

Lemma codeUnitCompare_le (a b : string) : codeUnitCompare a b <= 0 <-> String.le a b.
Proof.
  unfold codeUnitCompare, String.le, String.leb.
  destruct (String.compare a b); cbn; split; (done || lia).
Qed.

Lemma forallb_isHexDigit_toLowerCase (cs : list ascii) :
  forallb isHexDigit (map toLowerCaseChar cs) = forallb isHexDigit cs.
Proof. induction cs; cbn; [done|]. by rewrite isHexDigit_toLowerCaseChar, IHcs. Qed.

Lemma lowerAddress_signerKey (c : Confirmation) :
  addressRegex_test (signerValue c) = true -> lowerAddress (signerKey c) = true.
Proof.
  intros Hc. unfold lowerAddress, signerKey. rewrite toLowerCase_idemp, String.eqb_refl, andb_true_r.
  destruct (signerValue c) as [|c0 a]; [done|].
  destruct c0 as [[] [] [] [] [] [] [] []]; try done.
  destruct a as [|c1 digits]; [done|].
  destruct c1 as [[] [] [] [] [] [] [] []]; try done.
  cbn [toLowerCase]. change (toLowerCaseChar "0") with "0"%char.
  change (toLowerCaseChar "x") with "x"%char. cbn [addressRegex_test] in *.
  apply andb_true_iff in Hc as [Hlen Hhex]. rewrite toLowerCase_length, Hlen.
  by rewrite list_ascii_of_toLowerCase, forallb_isHexDigit_toLowerCase, Hhex.
Qed.

Section collation.
Context `{C : Collator} (HC : collatesHexByCodeUnit C).

Lemma compareSigners_codeUnit (a b : Confirmation) :
  addressRegex_test (signerValue a) = true ->
  addressRegex_test (signerValue b) = true ->
  (compareSigners a b <=? 0) = (@compareSigners codeUnitCollator a b <=? 0).
Proof.
  intros Ha Hb.
  change (@compareSigners C a b) with (@localeCompare C (signerKey a) (signerKey b)).
  change (@compareSigners codeUnitCollator a b) with (codeUnitCompare (signerKey a) (signerKey b)).
  rewrite <- (HC _ _ (lowerAddress_signerKey a Ha) (lowerAddress_signerKey b Hb)).
  by destruct (localeCompare (signerKey a) (signerKey b)).
Qed.

Lemma Array_sort_compareSigners (sigs : list Confirmation) :
  addressSigners sigs ->
  Array_sort compareSigners sigs = Array_sort (@compareSigners codeUnitCollator) sigs.
Proof.
  intros Hsigs. apply Array_sort_ext. intros a b Ha Hb.
  unfold addressSigners in Hsigs. rewrite Forall_forall in Hsigs.
  apply compareSigners_codeUnit; auto.
Qed.

End collation.

#[local] Instance signerLe_trans : Transitive signerLe.
Proof. intros a b c. unfold signerLe. apply transitivity. Qed.

#[local] Instance signerLe_total : Total signerLe.
Proof. intros a b. unfold signerLe. apply total, _. Qed.

Lemma compareSigners_signerLe (a b : Confirmation) :
  @compareSigners codeUnitCollator a b <= 0 <-> signerLe a b.
Proof. apply codeUnitCompare_le. Qed.

Lemma signerKey_bytes (a b : Confirmation) :
  addressRegex_test (signerValue a) = true ->
  addressRegex_test (signerValue b) = true ->
  signerKey a = signerKey b -> signerBytes a = signerBytes b.
Proof.
  intros Ha Hb Hkey. unfold signerBytes.
  rewrite <- (hexBytes_toLowerCase _ Ha), <- (hexBytes_toLowerCase _ Hb).
  unfold signerKey in Hkey. by rewrite Hkey.
Qed.

(** Distinct addresses sorted by [signerLe] ascend strictly. *)
Lemma signerLe_strict (sigs : list Confirmation) :
  addressSigners sigs -> NoDup (map signerBytes sigs) ->
  StronglySorted signerLe sigs -> StronglySorted signerLt sigs.
Proof.
  intros Haddr Hnd Hsorted. induction Hsorted as [|a l Hl IH Ha]; [constructor|].
  apply Forall_cons in Haddr as [Haa Haddr]. cbn in Hnd. apply NoDup_cons in Hnd as [Hnotin Hnd].
  constructor; [by apply IH|].
  rewrite Forall_forall in Ha, Haddr |- *. intros b Hb. specialize (Ha b Hb).
  unfold signerLe, String.le, String.leb in Ha. unfold signerLt.
  destruct (String.compare (signerKey a) (signerKey b)) eqn:Hcmp; [|done..].
  apply String.compare_eq_iff in Hcmp. destruct Hnotin.
  rewrite (signerKey_bytes a b Haa (Haddr b Hb) Hcmp).
  apply list_elem_of_In, in_map, list_elem_of_In, Hb.
Qed.

(** *** What [combineSignatures] returns and leaves behind *)

Lemma combineSignatures_run `{C : Collator} (this : SafeClient) (signatures : loc)
    (sigs : list Confirmation) (w : World) :
  heap w !! signatures = Some sigs ->
  combineSignatures this signatures w
    = (Returns (bundleOf (Array_sort compareSigners sigs)),
       set_heap (<[signatures := Array_sort compareSigners sigs]> (heap w)) w).
Proof.
  intros Hsigs. unfold combineSignatures, mbind, M_bind, Array_prototype_sort, Array_prototype_map.
  rewrite Hsigs. cbn [set_heap heap]. by rewrite lookup_insert_eq.
Qed.

(** The sorted order of distinct addresses does not depend on the order of
    arrival. *)
Lemma Array_sort_signers_unique `{C : Collator} (sigs1 sigs2 : list Confirmation) :
  collatesHexByCodeUnit C ->
  addressSigners sigs1 -> NoDup (map signerBytes sigs1) -> sigs1 ≡ₚ sigs2 ->
  Array_sort compareSigners sigs1 = Array_sort compareSigners sigs2.
Proof.
  intros HC Haddr Hnd Hperm.
  assert (Haddr2 : addressSigners sigs2) by (unfold addressSigners; by rewrite <- Hperm).
  rewrite !(Array_sort_compareSigners HC) by done.
  apply (StronglySorted_unique_strong signerLe).
  - intros a b Ha Hb Hab Hba.
    rewrite Array_sort_Permutation in Ha. rewrite Array_sort_Permutation, <- Hperm in Hb.
    unfold addressSigners in Haddr. rewrite Forall_forall in Haddr.
    apply (NoDup_map_eq signerBytes sigs1); [done..|].
    apply signerKey_bytes; auto. by apply (anti_symm String.le).
  - apply (Array_sort_sorted _ signerLe), compareSigners_signerLe.
  - apply (Array_sort_sorted _ signerLe), compareSigners_signerLe.
  - by rewrite !Array_sort_Permutation.
Qed.

Lemma Array_sort_signers_ascending `{C : Collator} (sigs : list Confirmation) :
  collatesHexByCodeUnit C ->
  addressSigners sigs -> NoDup (map signerBytes sigs) ->
  StronglySorted signerLt (Array_sort compareSigners sigs).
Proof.
  intros HC Haddr Hnd. rewrite (Array_sort_compareSigners HC) by done.
  apply signerLe_strict.
  - unfold addressSigners. by rewrite Array_sort_Permutation.
  - eapply NoDup_map_Permutation; [|done]. symmetry. apply Array_sort_Permutation.
  - apply (Array_sort_sorted _ signerLe), compareSigners_signerLe.
Qed.

(** *** The bundle's digits and bytes *)

Lemma join_cons (s : string) (parts : list string) : join (s :: parts) = s +:+ join parts.
Proof. done. Qed.

Lemma isSignatureHex_payload (s : string) :
  isSignatureHex s = true ->
  parse_hex_pairs (list_ascii_of_string (slice 2 s)) = Some (hexBytes s) /\
  length (hexBytes s) = 65%nat /\ String.length (slice 2 s) = 130%nat.
Proof.
  intros [Hhex Hlen%Nat.eqb_eq]%andb_true_iff.
  destruct (isHex_hexToBytes s Hhex) as (bs & Hbs & _ & Hbl).
  assert (Hdigits : String.length (slice 2 s) = 130%nat) by (rewrite slice_length, Hlen; lia).
  unfold hexBytes. rewrite Hbs. unfold hexToBytes in Hbs. rewrite Hdigits in Hbs.
  change (Nat.odd 130) with false in Hbs. cbv beta iota zeta in Hbs.
  destruct (parse_hex_pairs (list_ascii_of_string (slice 2 s))) as [bs'|]; [|done].
  injection Hbs as ->. rewrite Hlen in Hbl. cbn in Hbl. repeat split; [lia|done].
Qed.

Lemma bundle_digits (sigs : list Confirmation) :
  hexSignatures sigs ->
  parse_hex_pairs (list_ascii_of_string (join (map (fun sig => slice 2 (signature sig)) sigs)))
    = Some (concat (map signaturePayload sigs)) /\
  String.length (join (map (fun sig => slice 2 (signature sig)) sigs)) = (130 * length sigs)%nat /\
  length (concat (map signaturePayload sigs)) = (65 * length sigs)%nat.
Proof.
  induction 1 as [|c sigs Hc _ (IHparse & IHdigits & IHbytes)]; [done|].
  destruct (isSignatureHex_payload _ Hc) as (Hparse & Hlen & Hdigits).
  cbn [map concat length]. rewrite join_cons. repeat apply conj.
  - rewrite list_ascii_of_string_app, (parse_hex_pairs_app _ _ _ Hparse), IHparse. done.
  - rewrite string_length_app, Hdigits, IHdigits. lia.
  - rewrite length_app, IHbytes. unfold signaturePayload. rewrite Hlen. lia.
Qed.

Lemma bundleOf_bytes (sigs : list Confirmation) :
  hexSignatures sigs ->
  String.length (bundleOf sigs) = (2 + 130 * length sigs)%nat /\
  hexToBytes (bundleOf sigs) = Returns (concat (map signaturePayload sigs)) /\
  length (concat (map signaturePayload sigs)) = (65 * length sigs)%nat.
Proof.
  intros Hsigs. destruct (bundle_digits sigs Hsigs) as (Hparse & Hdigits & Hbytes).
  unfold bundleOf. split; [by rewrite string_length_app, Hdigits|]. split; [|done].
  unfold hexToBytes.
  change (slice 2 ("0x" +:+ ?s)) with s.
  rewrite Hdigits, Nat.odd_mul. cbn [Nat.odd Nat.even negb andb]. by rewrite Hparse.
Qed.

Lemma hexSignatures_Permutation (sigs sorted : list Confirmation) :
  sorted ≡ₚ sigs -> hexSignatures sigs -> hexSignatures sorted.
Proof. intros Hp. unfold hexSignatures. by rewrite Hp. Qed.

Lemma codeUnitCollator_collates : collatesHexByCodeUnit codeUnitCollator.
Proof.
  intros a b _ _. change (@localeCompare codeUnitCollator a b) with (codeUnitCompare a b).
  unfold codeUnitCompare. by destruct (String.compare a b).
Qed.

(** C3 — For signatures whose signers are pairwise distinct addresses, the
    bundle [combineSignatures] returns does not depend on the order of the
    array it is given: two arrays holding the same signatures in different
    orders yield the same string (and are left in the same order).  The
    runtime's collation is taken to order lower-case addresses as their code
    units do. *)
Theorem combineSignatures_order_invariant `{C : Collator} (this : SafeClient)
    (signatures1 signatures2 : loc) (sigs1 sigs2 : list Confirmation) (w1 w2 : World) :
  collatesHexByCodeUnit C ->
  heap w1 !! signatures1 = Some sigs1 ->
  heap w2 !! signatures2 = Some sigs2 ->
  addressSigners sigs1 ->
  NoDup (map signerBytes sigs1) ->
  sigs1 ≡ₚ sigs2 ->
  fst (combineSignatures this signatures1 w1) = fst (combineSignatures this signatures2 w2)
  /\ heap (snd (combineSignatures this signatures1 w1)) !! signatures1
     = heap (snd (combineSignatures this signatures2 w2)) !! signatures2.
Proof.
  intros HC H1 H2 Haddr Hnd Hperm.
  rewrite (combineSignatures_run this _ _ _ H1), (combineSignatures_run this _ _ _ H2).
  cbn [fst snd set_heap heap]. rewrite !lookup_insert_eq.
  by rewrite (Array_sort_signers_unique sigs1 sigs2 HC Haddr Hnd Hperm).
Qed.

(** C4 — In the output of [combineSignatures] the signatures stand in
    strictly ascending order of their signers' addresses, compared as
    lower-cased hex strings, character by character: for an array of
    signatures with pairwise distinct signer addresses there is exactly one
    such arrangement of the array, the array is left in it, and the result
    is the prefix "0x" followed by the digits of the signatures in that
    order.  The runtime's collation is taken to order lower-case addresses
    as their code units do. *)
Theorem combineSignatures_ascending `{C : Collator} (this : SafeClient)
    (signatures : loc) (sigs : list Confirmation) (w : World) :
  collatesHexByCodeUnit C ->
  heap w !! signatures = Some sigs ->
  addressSigners sigs ->
  NoDup (map signerBytes sigs) ->
  exists sorted : list Confirmation,
    sorted ≡ₚ sigs /\
    StronglySorted signerLt sorted /\
    (forall other, other ≡ₚ sigs -> StronglySorted signerLt other -> other = sorted) /\
    heap (snd (combineSignatures this signatures w)) !! signatures = Some sorted /\
    fst (combineSignatures this signatures w)
      = Returns ("0x" +:+ join (map (fun sig => slice 2 (signature sig)) sorted)).
Proof.
  intros HC Hsigs Haddr Hnd. exists (Array_sort compareSigners sigs).
  pose proof (Array_sort_signers_ascending sigs HC Haddr Hnd) as Hasc.
  rewrite (combineSignatures_run this _ _ _ Hsigs). cbn [fst snd set_heap heap].
  rewrite lookup_insert_eq. repeat apply conj; [apply Array_sort_Permutation|done| |done|done].
  intros other Hperm Hother.
  apply (StronglySorted_unique_strong signerLt); [|done|done|by rewrite Array_sort_Permutation].
  intros a b _ _ Hab Hba. unfold signerLt in Hab, Hba.
  rewrite String.compare_antisym, Hba in Hab. done.
Qed.

(** C9 — [combineSignatures] sorts the caller's array in place: after the
    call the array the caller passed holds the same signatures in ascending
    order of their signers' lower-cased addresses (strictly ascending when
    the signers are distinct), which is the order the bundle is built in.
    The array is left as it was only if it was in that order before the
    call: an array that was out of order has been changed.  No other array,
    no request and no console line changes.  The runtime's collation is
    taken to order lower-case addresses as their code units do. *)
Theorem combineSignatures_sorts_in_place `{C : Collator} (this : SafeClient)
    (signatures : loc) (sigs : list Confirmation) (w : World) :
  collatesHexByCodeUnit C ->
  heap w !! signatures = Some sigs ->
  addressSigners sigs ->
  exists sorted : list Confirmation,
    heap (snd (combineSignatures this signatures w)) !! signatures = Some sorted
    /\ sorted ≡ₚ sigs
    /\ StronglySorted signerLe sorted
    /\ (NoDup (map signerBytes sigs) -> StronglySorted signerLt sorted)
    /\ (sorted = sigs <-> StronglySorted signerLe sigs)
    /\ fst (combineSignatures this signatures w) = Returns (bundleOf sorted)
    /\ (forall other : loc, other <> signatures ->
          heap (snd (combineSignatures this signatures w)) !! other = heap w !! other)
    /\ requests (snd (combineSignatures this signatures w)) = requests w
    /\ console (snd (combineSignatures this signatures w)) = console w.
Proof.
  intros HC Hsigs Haddr. exists (Array_sort compareSigners sigs).
  rewrite (combineSignatures_run this _ _ _ Hsigs).
  cbn [fst snd set_heap heap requests console].
  split; [by rewrite lookup_insert_eq|].
  split; [apply Array_sort_Permutation|].
  split; [rewrite (Array_sort_compareSigners HC) by done;
          apply (Array_sort_sorted _ signerLe), compareSigners_signerLe|].
  split; [intros Hnd; by apply Array_sort_signers_ascending|].
  split; [rewrite (Array_sort_compareSigners HC) by done;
          apply (Array_sort_fixed _ signerLe), compareSigners_signerLe|].
  split; [done|].
  split; [|done]. intros other Hother. by rewrite lookup_insert_ne.
Qed.

(** C7 (amended) — For an array of N 65-byte signatures in hex,
    [combineSignatures] returns exactly 2 + 130*N characters: the two
    characters of the prefix "0x" and the 130 hex digits of each signature,
    with nothing between them; read as hex, the result is the 65*N bytes of
    the signatures, in sorted order. *)
Theorem combineSignatures_bundle_length `{C : Collator} (this : SafeClient)
    (signatures : loc) (sigs : list Confirmation) (w : World) :
  heap w !! signatures = Some sigs ->
  hexSignatures sigs ->
  exists (bundle : string) (sorted : list Confirmation),
    fst (combineSignatures this signatures w) = Returns bundle /\
    String.length bundle = (2 + 130 * length sigs)%nat /\
    sorted ≡ₚ sigs /\
    bundle = "0x" +:+ join (map (fun sig => slice 2 (signature sig)) sorted) /\
    hexToBytes bundle = Returns (concat (map signaturePayload sorted)) /\
    length (concat (map signaturePayload sorted)) = (65 * length sigs)%nat.
Proof.
  intros Hsigs Hhex.
  exists (bundleOf (Array_sort compareSigners sigs)), (Array_sort compareSigners sigs).
  rewrite (combineSignatures_run this _ _ _ Hsigs). cbn [fst].
  destruct (bundleOf_bytes (Array_sort compareSigners sigs)) as (Hlen & Hbytes & Hsize).
  { eapply hexSignatures_Permutation; [apply Array_sort_Permutation|done]. }
  rewrite Array_sort_length in Hlen, Hsize.
  repeat apply conj; [done|done|apply Array_sort_Permutation|done|done|done].
Qed.

(** C5 (amended) — [combineSignatures] takes no required count and checks no
    threshold: for every array of signatures, also one with fewer distinct
    signers than a required count, it returns the bundle of the signatures
    it was given and throws nothing.  The check against
    [confirmationsRequired] is the caller's ([verifySignatures]). *)
Theorem combineSignatures_below_quorum `{C : Collator} (this : SafeClient)
    (signatures : loc) (sigs : list Confirmation) (requiredCount : Z) (w : World) :
  heap w !! signatures = Some sigs ->
  Z.of_nat (distinctSigners sigs) < requiredCount ->
  exists sorted : list Confirmation,
    sorted ≡ₚ sigs /\
    fst (combineSignatures this signatures w) = Returns (bundleOf sorted).
Proof.
  intros Hsigs _. exists (Array_sort compareSigners sigs).
  rewrite (combineSignatures_run this _ _ _ Hsigs). split; [apply Array_sort_Permutation|done].
Qed.

(** *** [verifySignatures] *)

Lemma remove_dups_NoDup `{EqDecision A} (l : list A) : NoDup l -> remove_dups l = l.
Proof.
  induction 1 as [|x l Hx _ IH]; [done|]. cbn. rewrite IH.
  by destruct (decide_rel elem_of x l).
Qed.

Lemma verifySignatures_run (this : SafeClient) (chainId safeTxHash : string) (w : World)
    (response : Response) (info : ExecutionInfo) :
  network w (requests w)
    (baseUrl this +:+ "/v1/chains/" +:+ chainId +:+ "/transactions/" +:+ safeTxHash)
    = Some response ->
  ok response = true ->
  body response = Some (JsonTransaction {| detailedExecutionInfo := Some info |}) ->
  fst (verifySignatures this chainId safeTxHash w)
    = Returns (Z.of_nat (length (confirmations info)) >=? confirmationsRequired info).
Proof.
  intros Hnet Hok Hbody.
  unfold verifySignatures, try_catch, mbind, M_bind, fetch, json, throw_if.
  rewrite Hnet, Hok, Hbody. done.
Qed.

(** C8 (amended) — [verifySignatures] compares the number of confirmations
    the service lists, [confirmations.length], with [confirmationsRequired]:
    it returns true iff that number is greater than or equal to the required
    count, false when it equals required - 1 and true when it equals
    required.  The number is the number of distinct signers when the listed
    signers are pairwise distinct; a signer listed twice counts twice. *)
Theorem verifySignatures_counts_confirmations (this : SafeClient)
    (chainId safeTxHash : string) (w : World) (response : Response) (info : ExecutionInfo) :
  network w (requests w)
    (baseUrl this +:+ "/v1/chains/" +:+ chainId +:+ "/transactions/" +:+ safeTxHash)
    = Some response ->
  ok response = true ->
  body response = Some (JsonTransaction {| detailedExecutionInfo := Some info |}) ->
  let submitted := Z.of_nat (length (confirmations info)) in
  let required := confirmationsRequired info in
  let result := fst (verifySignatures this chainId safeTxHash w) in
  (result = Returns true <-> submitted >= required)
  /\ (result = Returns false <-> submitted < required)
  /\ (submitted = required - 1 -> result = Returns false)
  /\ (submitted = required -> result = Returns true)
  /\ (NoDup (map signerValue (confirmations info)) ->
      Z.of_nat (distinctSigners (confirmations info)) = submitted).
Proof.
  intros Hnet Hok Hbody submitted required result.
  assert (Hrun : result = Returns (submitted >=? required))
    by (by apply verifySignatures_run with response).
  rewrite Hrun, Z.geb_leb. clear Hrun. split; [|split; [|split; [|split]]].
  - split; [intros [= H%Z.leb_le]; lia | intros H; f_equal; apply Z.leb_le; lia].
  - split; [intros [= H%Z.leb_gt]; lia | intros H; f_equal; apply Z.leb_gt; lia].
  - intros H. f_equal. apply Z.leb_gt. lia.
  - intros H. f_equal. apply Z.leb_le. lia.
  - intros Hnd. unfold distinctSigners. rewrite (remove_dups_NoDup _ Hnd).
    by rewrite length_map.
Qed.

(** *** [getSafeInfo] *)

(** C10 — [getSafeInfo] validates its arguments before any request: for an
    empty chain id, an empty Safe address, or a Safe address that does not
    match [/^0x[a-fA-F0-9]{40}$/], it throws an [Error] and issues no
    [fetch]; the error is logged to the console and nothing else changes. *)
Theorem getSafeInfo_validates_before_fetch (this : SafeClient)
    (chainId safeAddress : string) (w : World) :
  chainId = EmptyString \/ safeAddress = EmptyString \/ addressRegex_test safeAddress = false ->
  exists message : string,
    fst (getSafeInfo this chainId safeAddress w) = Throws (Error message)
    /\ requests (snd (getSafeInfo this chainId safeAddress w)) = requests w
    /\ heap (snd (getSafeInfo this chainId safeAddress w)) = heap w
    /\ console (snd (getSafeInfo this chainId safeAddress w))
       = console w ++ [("Error in getSafeInfo:"%string, Error message)].
Proof.
  intros Hbad. unfold getSafeInfo, try_catch, mbind, M_bind, throw_if, console_error, throw.
  destruct (String.eqb chainId "" || String.eqb safeAddress "") eqn:Hempty.
  - by eexists.
  - destruct (addressRegex_test safeAddress) eqn:Hregex.
    + apply orb_false_iff in Hempty as [Hc%String.eqb_neq Ha%String.eqb_neq].
      by destruct Hbad as [?|[?|?]].
    + by eexists.
Qed.

(** *** The record of signatures *)

Lemma filter_none {A} (P : A -> Prop) `{forall x, Decision (P x)} (l : list A) :
  Forall (fun x => ~ P x) l -> filter P l = [].
Proof.
  induction 1 as [|x l Hx _ IH]; [done|]. by rewrite filter_cons_False.
Qed.

Lemma recorded_insert (store : gmap (list Z) (list Signature)) (hash : list Z)
    (sigs : list Signature) :
  recorded (<[hash := sigs]> store) hash = sigs.
Proof. unfold recorded. by rewrite lookup_insert_eq. Qed.

(** C6 — Adding two signatures with the same signer address for the same
    hash: once the first is recorded, the second call fails with
    [DuplicateSignerError] and leaves the record as it was; of that signer
    the record holds the first signature only. *)
Theorem addSignature_duplicate_rejected (store store1 : gmap (list Z) (list Signature))
    (hash : list Z) (first second : Signature) :
  signerAddress second = signerAddress first ->
  addSignature hash first store = (Returns tt, store1) ->
  addSignature hash second store1 = (Throws DuplicateSignerError, store1)
  /\ filter (fun sig => signerAddress sig = signerAddress first) (recorded store1 hash)
     = [first]
  /\ recorded store1 hash = recorded store hash ++ [first].
Proof.
  intros Hsame Hfirst. unfold addSignature in Hfirst.
  destruct (bool_decide_reflect
              (signerAddress first ∈ map signerAddress (recorded store hash))) as [|Hnew];
    [done|]. injection Hfirst as <-.
  rewrite recorded_insert. repeat apply conj.
  - unfold addSignature. rewrite recorded_insert, bool_decide_true; [done|].
    rewrite Hsame, map_app. apply elem_of_app. right. by left.
  - rewrite filter_app, filter_cons_True, filter_nil by done.
    rewrite filter_none; [done|].
    apply Forall_forall. intros sig Hsig Heq. apply Hnew. rewrite <- Heq.
    apply list_elem_of_In, in_map, list_elem_of_In, Hsig.
  - done.
Qed.

(** *** The theorems at sample values *)

(** a hypothesis at a sample value: by evaluation, or by arithmetic *)
Ltac by_evaluation :=
  lazymatch goal with
  | |- _ = true => vm_compute; reflexivity
  | |- _ = Some _ => vm_compute; reflexivity
  | |- _ <= _ < _ => cbn; lia
  | |- _ < _ => vm_compute; reflexivity
  | |- NoDup ?l => apply (bool_decide_unpack (NoDup l)); vm_compute; exact I
  | |- Forall _ _ => repeat constructor; vm_compute; reflexivity
  end.

(** the hash of the sample transfer on chain 100 *)
Example sample_transfer_hash :
  fst (calculateSafeTransactionHash sample_client sample_safeAddress 100 sample_transfer offline)
  = Returns "0x7e4d81d631459e1c969489d59178e91b3ca4de33808212c2ed1ac90aac917214"%string.
Proof. vm_compute. reflexivity. Qed.

(** the two type hashes are the digests of their type strings *)
Example typehashes_are_digests :
  keccak256 "EIP712Domain(uint256 chainId,address verifyingContract)"
    = Returns DOMAIN_SEPARATOR_TYPEHASH
  /\ keccak256 "SafeTx(address to,uint256 value,bytes data,uint8 operation,uint256 safeTxGas,uint256 baseGas,uint256 gasPrice,address gasToken,address refundReceiver,uint256 nonce)"
    = Returns SAFE_TX_TYPEHASH.
Proof. split; vm_compute; reflexivity. Qed.

Lemma calculateSafeTransactionHash_eip712_witness :
  calculateSafeTransactionHash sample_client sample_safeAddress 100 sample_transfer offline
    = (Returns (bytesToHex (keccak_256 (spec_preimage sample_safeAddress 100 sample_transfer))),
       offline)
  /\ length (spec_preimage sample_safeAddress 100 sample_transfer) = 66%nat.
Proof.
  destruct (calculateSafeTransactionHash_eip712 sample_client sample_safeAddress 100
              sample_transfer offline) as (Hhash & Hlen & _).
  - constructor; by_evaluation.
  - constructor; by_evaluation.
  - split; [exact Hhash | exact Hlen].
Defined.

Lemma calculateSafeTransactionHash_deterministic_witness :
  exists hash : list Z,
    length hash = 32%nat /\
    calculateSafeTransactionHash sample_client sample_safeAddress 100 sample_transfer offline
      = (Returns (bytesToHex hash), offline) /\
    calculateSafeTransactionHash {| baseUrl := "" |} sample_safeAddress 100 sample_transfer
        (holding [confirmation_dEaD])
      = (Returns (bytesToHex hash), holding [confirmation_dEaD]).
Proof.
  destruct (calculateSafeTransactionHash_deterministic sample_client {| baseUrl := "" |}
              offline (holding [confirmation_dEaD]) sample_safeAddress 100 sample_transfer)
    as (hash & Hlen & _ & H1 & H2).
  - constructor; by_evaluation.
  - constructor; by_evaluation.
  - exists hash. split; [exact Hlen | split; [exact H1 | exact H2]].
Defined.

Lemma combineSignatures_order_invariant_witness :
  fst (@combineSignatures codeUnitCollator sample_client 1%positive
         (holding [confirmation_5aAe; confirmation_dEaD]))
  = fst (@combineSignatures codeUnitCollator sample_client 1%positive
           (holding [confirmation_dEaD; confirmation_5aAe])).
Proof.
  apply (@combineSignatures_order_invariant codeUnitCollator sample_client 1%positive 1%positive
           [confirmation_5aAe; confirmation_dEaD] [confirmation_dEaD; confirmation_5aAe]).
  - exact codeUnitCollator_collates.
  - by_evaluation.
  - by_evaluation.
  - unfold addressSigners. by_evaluation.
  - by_evaluation.
  - apply perm_swap.
Defined.

Lemma combineSignatures_ascending_witness :
  exists sorted : list Confirmation,
    sorted ≡ₚ [confirmation_5aAe; confirmation_dEaD] /\
    StronglySorted signerLt sorted /\
    fst (@combineSignatures codeUnitCollator sample_client 1%positive
           (holding [confirmation_5aAe; confirmation_dEaD]))
      = Returns ("0x" +:+ join (map (fun sig => slice 2 (signature sig)) sorted)).
Proof.
  destruct (@combineSignatures_ascending codeUnitCollator sample_client 1%positive
              [confirmation_5aAe; confirmation_dEaD]
              (holding [confirmation_5aAe; confirmation_dEaD]))
    as (sorted & Hperm & Hsorted & _ & _ & Hbundle).
  - exact codeUnitCollator_collates.
  - by_evaluation.
  - unfold addressSigners. by_evaluation.
  - by_evaluation.
  - exists sorted. split; [exact Hperm | split; [exact Hsorted | exact Hbundle]].
Defined.

Lemma combineSignatures_sorts_in_place_witness :
  exists sorted : list Confirmation,
    heap (snd (@combineSignatures codeUnitCollator sample_client 1%positive
                 (holding [confirmation_5aAe; confirmation_dEaD]))) !! 1%positive
      = Some sorted
    /\ StronglySorted signerLe sorted
    /\ sorted <> [confirmation_5aAe; confirmation_dEaD].
Proof.
  destruct (@combineSignatures_sorts_in_place codeUnitCollator sample_client 1%positive
              [confirmation_5aAe; confirmation_dEaD]
              (holding [confirmation_5aAe; confirmation_dEaD]))
    as (sorted & Hheap & _ & Hsorted & _ & Hfixed & _).
  - exact codeUnitCollator_collates.
  - by_evaluation.
  - unfold addressSigners. by_evaluation.
  - exists sorted. split; [exact Hheap | split; [exact Hsorted |]].
    intros Hsame. apply Hfixed in Hsame.
    apply StronglySorted_inv in Hsame as [_ Hfirst].
    apply Forall_inv in Hfirst. vm_compute in Hfirst. exact Hfirst.
Defined.

(** the sample array is reordered: the dead address sorts first *)
Example combineSignatures_reorders :
  heap (snd (@combineSignatures codeUnitCollator sample_client 1%positive
               (holding [confirmation_5aAe; confirmation_dEaD]))) !! 1%positive
  = Some [confirmation_dEaD; confirmation_5aAe].
Proof. vm_compute. reflexivity. Qed.

Lemma combineSignatures_bundle_length_witness :
  exists (bundle : string) (sorted : list Confirmation),
    fst (@combineSignatures codeUnitCollator sample_client 1%positive
           (holding [confirmation_5aAe; confirmation_dEaD])) = Returns bundle /\
    String.length bundle = (2 + 130 * 2)%nat /\
    hexToBytes bundle = Returns (concat (map signaturePayload sorted)) /\
    length (concat (map signaturePayload sorted)) = (65 * 2)%nat.
Proof.
  destruct (@combineSignatures_bundle_length codeUnitCollator sample_client 1%positive
              [confirmation_5aAe; confirmation_dEaD]
              (holding [confirmation_5aAe; confirmation_dEaD]))
    as (bundle & sorted & Hrun & Hlen & _ & _ & Hbytes & Hsize).
  - by_evaluation.
  - unfold hexSignatures. by_evaluation.
  - exists bundle, sorted.
    split; [exact Hrun | split; [exact Hlen | split; [exact Hbytes | exact Hsize]]].
Defined.

(** C7, as stated, fails: one 65-byte signature gives 132 characters, not
    1 + 130 * 1 = 131. *)
Lemma combineSignatures_bundle_length_132 :
  isSignatureHex (signature confirmation_dEaD) = true
  /\ exists bundle : string,
       fst (@combineSignatures codeUnitCollator sample_client 1%positive
              (holding [confirmation_dEaD])) = Returns bundle
       /\ String.length bundle = 132%nat
       /\ Nat.eqb (String.length bundle) (1 + 130 * 1) = false.
Proof.
  split; [vm_compute; reflexivity|].
  eexists. split; [vm_compute; reflexivity|]. split; vm_compute; reflexivity.
Qed.

Lemma combineSignatures_below_quorum_witness :
  exists sorted : list Confirmation,
    sorted ≡ₚ [confirmation_dEaD] /\
    fst (@combineSignatures codeUnitCollator sample_client 1%positive
           (holding [confirmation_dEaD])) = Returns (bundleOf sorted).
Proof.
  apply (@combineSignatures_below_quorum codeUnitCollator sample_client 1%positive
           [confirmation_dEaD] 2 (holding [confirmation_dEaD])).
  - by_evaluation.
  - by_evaluation.
Defined.

(** C5, as stated, fails: with one signer where two are required,
    [combineSignatures] returns a bundle and does not throw
    [InsufficientSignaturesError]. *)
Lemma combineSignatures_one_of_two :
  (Z.of_nat (distinctSigners [confirmation_dEaD]) <? 2) = true
  /\ fst (@combineSignatures codeUnitCollator sample_client 1%positive
            (holding [confirmation_dEaD]))
     = Returns (bundleOf [confirmation_dEaD])
  /\ fst (@combineSignatures codeUnitCollator sample_client 1%positive (holding []))
     = Returns "0x"%string.
Proof. repeat split; vm_compute; reflexivity. Qed.

Lemma verifySignatures_counts_confirmations_witness :
  fst (verifySignatures sample_client "100" (bytesToHex sample_hash)
         (answering (two_required [confirmation_5aAe; confirmation_dEaD])))
  = Returns true.
Proof.
  apply (verifySignatures_counts_confirmations sample_client "100" (bytesToHex sample_hash)
           (answering (two_required [confirmation_5aAe; confirmation_dEaD]))
           (two_required [confirmation_5aAe; confirmation_dEaD])
           {| confirmations := [confirmation_5aAe; confirmation_dEaD];
              confirmationsRequired := 2 |}).
  - reflexivity.
  - reflexivity.
  - reflexivity.
  - reflexivity.
Defined.

(** C8, as stated, fails: one signer listed twice, two required; the check
    returns true with one distinct signer. *)
Lemma verifySignatures_counts_duplicates :
  fst (verifySignatures sample_client "100" (bytesToHex sample_hash)
         (answering (two_required [confirmation_dEaD; confirmation_dEaD])))
  = Returns true
  /\ distinctSigners [confirmation_dEaD; confirmation_dEaD] = 1%nat
  /\ (Z.of_nat (distinctSigners [confirmation_dEaD; confirmation_dEaD]) >=? 2) = false.
Proof. repeat split; vm_compute; reflexivity. Qed.

Lemma getSafeInfo_validates_before_fetch_witness :
  exists message : string,
    fst (getSafeInfo sample_client "100" "0x123" (answering (two_required [])))
      = Throws (Error message)
    /\ requests (snd (getSafeInfo sample_client "100" "0x123" (answering (two_required []))))
       = [].
Proof.
  destruct (getSafeInfo_validates_before_fetch sample_client "100" "0x123"
              (answering (two_required [])))
    as (message & Hthrows & Hrequests & _).
  - right. right. reflexivity.
  - exists message. split; [exact Hthrows | exact Hrequests].
Defined.

Lemma addSignature_duplicate_rejected_witness :
  addSignature sample_hash (signature_of 0xaa 0x22)
    (snd (addSignature sample_hash (signature_of 0xaa 0x11) ∅))
  = (Throws DuplicateSignerError, snd (addSignature sample_hash (signature_of 0xaa 0x11) ∅))
  /\ recorded (snd (addSignature sample_hash (signature_of 0xaa 0x11) ∅)) sample_hash
     = [signature_of 0xaa 0x11].
Proof.
  destruct (addSignature_duplicate_rejected ∅
              (snd (addSignature sample_hash (signature_of 0xaa 0x11) ∅))
              sample_hash (signature_of 0xaa 0x11) (signature_of 0xaa 0x22))
    as (Hsecond & _ & Hrecorded).
  - reflexivity.
  - reflexivity.
  - split; [exact Hsecond | exact Hrecorded].
Defined.
